(** * kube-warden: the time-bounded access-rule reconciler

    A shallow embedding of the Go package [caretaker] (the allow-list
    reconciler, the annotation codec, the grant applier and the expiry
    sweeper) together with the background worker of [server.go].

    Go strings are [string]; a slice is a [list]; the annotation map is a
    [gmap string string] behind an [option] ([None] is Go's nil map); the
    cluster API, the wall clock and the runtime's map iteration order are
    an abstract environment threaded through a small state monad.  How the
    clientset is obtained and how a domain is resolved to a service are
    not part of the model: the operations start from the service. *)

From Stdlib Require Import ZArith Lia Ascii String List Bool.
From stdpp Require Import base option list gmap strings.

Local Open Scope string_scope.
Local Open Scope list_scope.

(** ** Constants *)

Definition mgmtAnnotation : string := "service.caretaker.ipautomanaged".
Definition annotationKeyPrefix : string := "service.caretaker.ipaddr".

(** ** Errors

    Every error of the package is built by [fmt.Errorf]; the constructors
    name the call sites and [Error] renders the message. [ErrGateway] stands
    for an error handed back by the cluster API. *)

Inductive error : Type :=
| ErrAlreadyWhitelisted (v : string)
| ErrNotFound
| ErrUnsupportedOperation (op : string)
| ErrGateway (msg : string).

Definition Error (e : error) : string :=
  match e with
  | ErrAlreadyWhitelisted v => "IP address " +:+ v +:+ " already whitelisted"
  | ErrNotFound => "IP address not found."
  | ErrUnsupportedOperation op => "Unsupported operation " +:+ op
  | ErrGateway msg => msg
  end.

Inductive result (A : Type) : Type :=
| Ok (a : A)
| Err (e : error).
Arguments Ok {A} a.
Arguments Err {A} e.

(** ** The allow-list reconciler *)

(** The scan of the "add" branch: the first entry equal to [n], if any. *)
Fixpoint add_scan (c : list string) (n : string) : option string :=
  match c with
  | [] => None
  | v :: c' => if String.eqb v n then Some v else add_scan c' n
  end.

(** The scan of the "remove" branch over the entries from index [i] on;
    [c] is the whole slice.  At the first match the slot [i] is overwritten
    with [c[0]] and the slice is re-sliced from index 1. *)
Fixpoint remove_scan (c : list string) (n : string) (i : nat)
    (rest : list string) : option (list string) :=
  match rest with
  | [] => None
  | v :: rest' =>
      if String.eqb v n then Some (drop 1 (<[i := c !!! 0%nat]> c))
      else remove_scan c n (S i) rest'
  end.

Definition reconcileSourceRanges (c : list string) (n : string) (op : string)
    : result (list string) :=
  if String.eqb op "add" then
    match add_scan c n with
    | Some v => Err (ErrAlreadyWhitelisted v)
    | None => Ok (c ++ [n])
    end
  else if String.eqb op "remove" then
    match remove_scan c n 0 c with
    | Some c' => Ok c'
    | None => Err ErrNotFound
    end
  else Err (ErrUnsupportedOperation op).

(** ** Wall-clock time

    A [Time] is the civil reading (proleptic Gregorian calendar, one fixed
    zone) of Go's [time.Time]: what [t.Date()] and [t.Clock()] return.
    [Date] builds a reading from possibly overflowing month and day fields
    and normalises it the way Go's [time.Date] does: months carry into
    years, days past the end of a month carry into the following months. *)

Record Time : Type := mkTime {
  year : Z; month : Z; day : Z; hour : Z; minute : Z; second : Z }.

Definition isLeap (y : Z) : bool :=
  (y mod 4 =? 0)%Z && (negb (y mod 100 =? 0)%Z || (y mod 400 =? 0)%Z).

Definition daysIn (m y : Z) : Z :=
  if (m =? 2)%Z then (if isLeap y then 29 else 28)%Z
  else if (m =? 4)%Z || (m =? 6)%Z || (m =? 9)%Z || (m =? 11)%Z then 30%Z
  else 31%Z.

Fixpoint norm_day (fuel : nat) (y m d : Z) : Z * Z * Z :=
  match fuel with
  | O => (y, m, d)
  | S fuel' =>
      if (daysIn m y <? d)%Z then
        if (m =? 12)%Z then norm_day fuel' (y + 1)%Z 1%Z (d - daysIn m y)%Z
        else norm_day fuel' y (m + 1)%Z (d - daysIn m y)%Z
      else (y, m, d)
  end.

Definition Date (y m d h mi s : Z) : Time :=
  let y1 := (y + (m - 1) / 12)%Z in
  let m1 := ((m - 1) mod 12 + 1)%Z in
  let '(y2, m2, d2) := norm_day (Z.to_nat d) y1 m1 d in
  mkTime y2 m2 d2 h mi s.

Definition AddDate (t : Time) (years months days : Z) : Time :=
  Date (year t + years) (month t + months) (day t + days)
       (hour t) (minute t) (second t).

Definition valid_time (t : Time) : Prop :=
  (1 <= month t <= 12 /\ 1 <= day t <= daysIn (month t) (year t) /\
   0 <= hour t < 24 /\ 0 <= minute t < 60 /\ 0 <= second t < 60)%Z.

(** Days from 0000-01-01 to the first day of year [y], then to the first
    day of month [m] of that year; used to measure elapsed time. *)
Definition days_before_year (y : Z) : Z :=
  (365 * y + (y + 3) / 4 - (y + 99) / 100 + (y + 399) / 400)%Z.

Definition days_before_month (m y : Z) : Z :=
  ((if (m =? 1) then 0 else if (m =? 2) then 31 else if (m =? 3) then 59
    else if (m =? 4) then 90 else if (m =? 5) then 120
    else if (m =? 6) then 151 else if (m =? 7) then 181
    else if (m =? 8) then 212 else if (m =? 9) then 243
    else if (m =? 10) then 273 else if (m =? 11) then 304 else 334)
   + (if isLeap y && (3 <=? m) then 1 else 0))%Z.

Definition abs_days (t : Time) : Z :=
  (days_before_year (year t) + days_before_month (month t) (year t)
   + (day t - 1))%Z.

Definition abs_seconds (t : Time) : Z :=
  (86400 * abs_days t + 3600 * hour t + 60 * minute t + second t)%Z.

(** *** Formatting with the layout "2006-01-02 15:04:05" *)

Definition digit (n : Z) : ascii := ascii_of_N (Z.to_N (48 + n)).

(** The decimal digits of [u], most significant first, pushed in front of
    [acc]; the buffer of the library holds 20 digits. *)
Fixpoint digits (fuel : nat) (u : Z) (acc : string) : string :=
  match fuel with
  | O => acc
  | S fuel' =>
      if (10 <=? u)%Z then digits fuel' (u / 10)%Z (String (digit (u mod 10)) acc)
      else String (digit u) acc
  end.

Fixpoint zeros (n : nat) : string :=
  match n with
  | O => EmptyString
  | S n' => String "0"%char (zeros n')
  end.

Definition appendInt (x : Z) (width : nat) : string :=
  let ds := digits 20 (Z.abs x) EmptyString in
  (if (x <? 0)%Z then "-" else "") +:+ zeros (width - String.length ds) +:+ ds.

Definition Format (t : Time) : string :=
  appendInt (year t) 4 +:+ "-" +:+ appendInt (month t) 2 +:+ "-" +:+
  appendInt (day t) 2 +:+ " " +:+ appendInt (hour t) 2 +:+ ":" +:+
  appendInt (minute t) 2 +:+ ":" +:+ appendInt (second t) 2.

(** ** Strings *)

Definition newline : string := String (ascii_of_nat 10) EmptyString.

Definition HasPrefix (s p : string) : bool := String.prefix p s.

Fixpoint string_drop (n : nat) (s : string) : string :=
  match n, s with
  | O, _ => s
  | S n', String _ s' => string_drop n' s'
  | S _, EmptyString => EmptyString
  end.

Definition TrimPrefix (s p : string) : string :=
  if HasPrefix s p then string_drop (String.length p) s else s.

(** ** Resources *)

Record Service : Type := mkService {
  Name : string;
  Namespace : string;
  Annotations : option (gmap string string);
  LoadBalancerSourceRanges : list string }.

Definition set_ranges (r : list string) (s : Service) : Service :=
  mkService (Name s) (Namespace s) (Annotations s) r.

Definition set_annotations (a : option (gmap string string)) (s : Service)
    : Service :=
  mkService (Name s) (Namespace s) a (LoadBalancerSourceRanges s).

Definition annotation (s : Service) (k : string) : option string :=
  Annotations s ≫= (.!! k).

Definition IsAutoManaged (s : Service) : bool :=
  match annotation s mgmtAnnotation with
  | Some _ => true
  | None => false
  end.

Definition applySourceRangesToSpec (r : list string) (s : Service) : Service :=
  set_ranges r s.

Definition annotationKey (iprange : string) : string :=
  annotationKeyPrefix +:+ "." +:+ iprange.

Definition removeServiceAnnotation (iprange : string) (s : Service) : Service :=
  set_annotations (delete (annotationKey iprange) <$> Annotations s) s.

(** ** The environment

    Everything outside the package: the cluster API behind the clientset
    ([Services(ns).Update], [Services("").List]), the wall clock and the
    order in which the Go runtime enumerates a map.  [servicesList] returns
    the list object together with the error, as the client does (the
    pointer it returns is never nil; on a failed request the list is as
    the client left it).  The clock gives readings in one fixed zone. *)

Class Cluster (E : Type) : Type := {
  timeNow : E → Time * E;
  servicesList : E → (list Service * option error) * E;
  servicesUpdate : string → Service → E → option error * E;
  mapRange : gmap string string → E → list string * E;
  mapRange_perm : ∀ m e, (mapRange m e).1 ≡ₚ (map_to_list m).*1 }.

(** The process state: the environment, what was written to standard
    output, and the [Update] requests sent to the cluster so far (namespace
    and object).  A computation either returns or panics (a write to a nil
    map). *)

Record World (E : Type) : Type := mkWorld {
  env : E;
  stdout : list string;
  updates : list (string * Service) }.
Arguments mkWorld {E} env stdout updates.
Arguments env {E} w.
Arguments stdout {E} w.
Arguments updates {E} w.

Inductive outcome (A : Type) : Type :=
| Ret (a : A)
| Panic.
Arguments Ret {A} a.
Arguments Panic {A}.

Definition M (E A : Type) : Type := World E → outcome A * World E.

Definition ret {E A} (a : A) : M E A := λ w, (Ret a, w).

Definition bind {E A B} (c : M E A) (k : A → M E B) : M E B :=
  λ w, match c w with
       | (Ret a, w') => k a w'
       | (Panic, w') => (Panic, w')
       end.

Definition panic {E A} : M E A := λ w, (Panic, w).

Notation "'let!' x ':=' c 'in' k" := (bind c (λ x, k))
  (at level 10, x pattern, c at level 100, k at level 200).

Definition Printf {E} (line : string) : M E unit :=
  λ w, (Ret tt, mkWorld (env w) (stdout w ++ [line]) (updates w)).

Definition lift_env {E A} (f : E → A * E) : M E A :=
  λ w, let '(a, e) := f (env w) in (Ret a, mkWorld e (stdout w) (updates w)).

Section Caretaker.
Context {E : Type} `{Cluster E}.

Definition Now : M E Time := lift_env timeNow.
Definition Update (ns : string) (s : Service) : M E (option error) :=
  λ w, let '(err, e) := servicesUpdate ns s (env w) in
       (Ret err, mkWorld e (stdout w) (updates w ++ [(ns, s)])).
Definition List : M E (list Service * option error) := lift_env servicesList.

(** Enumerating a map: the keys in the runtime's order; a nil map has no
    entries. *)
Definition Range (a : option (gmap string string)) : M E (list string) :=
  match a with
  | Some m => lift_env (mapRange m)
  | None => ret []
  end.

Definition updateServiceAnnotation (iprange : string) (s : Service)
    : M E (string * Service) :=
  let! now := Now in
  let deadline := Format (AddDate now 0 0 2) in
  let annotationKey := annotationKey iprange in
  let annotationValue := deadline in
  match Annotations s with
  | Some m =>
      ret (deadline,
           set_annotations (Some (<[annotationKey := annotationValue]> m)) s)
  | None => panic
  end.

Definition UpdateServiceSpec (iprange ns : string) (s : Service)
    : M E (Service * result string) :=
  match reconcileSourceRanges (LoadBalancerSourceRanges s) iprange "add" with
  | Err e => ret (s, Err e)
  | Ok ipranges =>
      let s := applySourceRangesToSpec ipranges s in
      let! (deadline, s) := updateServiceAnnotation iprange s in
      let! err := Update ns s in
      match err with
      | Some e => ret (s, Err e)
      | None => ret (s, Ok deadline)
      end
  end.

Definition RemoveIpFromService (iprange : string) (s : Service)
    : M E (Service * option error) :=
  let ns := Namespace s in
  match reconcileSourceRanges (LoadBalancerSourceRanges s) iprange "remove" with
  | Err e => ret (s, Some e)
  | Ok ipranges =>
      let s := applySourceRangesToSpec ipranges s in
      let s := removeServiceAnnotation iprange s in
      let! err := Update ns s in
      ret (s, err)
  end.

(** The body of the [range] loop of [IterateAnnotations] over the keys
    still to visit.  An entry deleted before it is reached is not
    produced, so each key is looked up when its turn comes. *)
Fixpoint iterate_loop (now : string) (keys : list string) (s : Service)
    : M E (Service * option error) :=
  match keys with
  | [] => ret (s, None)
  | a :: keys' =>
      match annotation s a with
      | None => iterate_loop now keys' s
      | Some v =>
          if HasPrefix a annotationKeyPrefix then
            if String.ltb v now then
              let! _ := Printf ("Time to remove this rule: " +:+ a +:+ newline) in
              let ip := TrimPrefix a (annotationKeyPrefix +:+ ".") in
              let! (s', err) := RemoveIpFromService ip s in
              match err with
              | Some e => ret (s', Some e)
              | None => iterate_loop now keys' s'
              end
            else
              let! _ := Printf ("Rule for " +:+ a +:+ " has not expired yet" +:+ newline) in
              iterate_loop now keys' s
          else iterate_loop now keys' s
      end
  end.

Definition IterateAnnotations (s : Service) : M E (Service * option error) :=
  let! t := Now in
  let now := Format t in
  let! keys := Range (Annotations s) in
  let! (s', err) := iterate_loop now keys s in
  match err with
  | Some e => ret (s', Some e)
  | None =>
      let! _ := Printf ("Finished checking rules for service " +:+ Name s' +:+ newline) in
      ret (s', None)
  end.

Definition GetServiceList : M E (list Service) :=
  let! (services, _) := List in
  ret services.

(** The loop over [services.Items] of one tick. *)
Fixpoint worker_items (items : list Service) : M E unit :=
  match items with
  | [] => ret tt
  | s :: items' =>
      let! _ :=
        (if IsAutoManaged s then
           let! (_, err) := IterateAnnotations s in
           match err with
           | Some e => Printf (Error e +:+ newline)
           | None => ret tt
           end
         else ret tt) in
      worker_items items'
  end.

Definition worker_tick : M E unit :=
  let! services := GetServiceList in
  worker_items services.

(** The first [ticks] rounds of the endless loop of [backgroundWorker]. *)
Fixpoint backgroundWorker (ticks : nat) : M E unit :=
  match ticks with
  | O => ret tt
  | S n => let! _ := worker_tick in backgroundWorker n
  end.

(** The keys the runtime hands to the loop and the environment after. *)
Definition range_keys (s : Service) (e : E) : list string * E :=
  match Annotations s with
  | Some m => mapRange m e
  | None => ([], e)
  end.

Definition sweep_start (s : Service) (w : World E) : World E :=
  mkWorld (range_keys s (timeNow (env w)).2).2 (stdout w) (updates w).

Definition sweep_now (w : World E) : string := Format (timeNow (env w)).1.

End Caretaker.

(** ** An in-memory cluster

    A small environment to run the package on concrete inputs: a fixed
    clock, the stored objects, a listing error to inject, the outcomes of
    the coming [Update] calls ([None] succeeds; once the script is used up
    every call succeeds) and the direction in which maps are enumerated. *)

Record Fake : Type := mkFake {
  fake_clock : Time;
  fake_store : list Service;
  fake_list_error : option error;
  fake_update_script : list (option error);
  fake_reverse : bool }.

Definition same_object (ns : string) (s o : Service) : bool :=
  String.eqb (Namespace o) ns && String.eqb (Name o) (Name s).

Definition fake_put (ns : string) (s : Service) (store : list Service)
    : list Service :=
  map (λ o, if same_object ns s o then s else o) store.

Definition fake_update (ns : string) (s : Service) (e : Fake)
    : option error * Fake :=
  match fake_update_script e with
  | Some err :: script =>
      (Some err, mkFake (fake_clock e) (fake_store e) (fake_list_error e)
                        script (fake_reverse e))
  | None :: script =>
      (None, mkFake (fake_clock e) (fake_put ns s (fake_store e))
                    (fake_list_error e) script (fake_reverse e))
  | [] =>
      (None, mkFake (fake_clock e) (fake_put ns s (fake_store e))
                    (fake_list_error e) [] (fake_reverse e))
  end.

Definition fake_list (e : Fake) : (list Service * option error) * Fake :=
  match fake_list_error e with
  | Some err => (([], Some err), e)
  | None => ((fake_store e, None), e)
  end.

Definition fake_range (m : gmap string string) (e : Fake) : list string * Fake :=
  (if fake_reverse e then reverse (map_to_list m).*1 else (map_to_list m).*1, e).

#[export] Instance fake_cluster : Cluster Fake := {
  timeNow e := (fake_clock e, e);
  servicesList := fake_list;
  servicesUpdate := fake_update;
  mapRange := fake_range;
  mapRange_perm := λ m e,
    match fake_reverse e as b
      return (if b then reverse (map_to_list m).*1 else (map_to_list m).*1)
             ≡ₚ (map_to_list m).*1
    with
    | true => reverse_Permutation _
    | false => reflexivity _
    end }.

(** A resource and a world to run the package on. *)
Definition demo_now : Time := mkTime 2017 12 30 23 59 58.

Definition demo_service : Service :=
  mkService "ingress-nginx" "default"
    (Some (<[mgmtAnnotation := "true"]> ∅)) ["192.168.0.0/16"].

Definition demo_world : World Fake :=
  mkWorld (mkFake demo_now [demo_service] None [] false) [] [].

Definition past : string := "2017-01-01 00:00:00".

(** Two expired rules, the first without its range in the allow-list. *)
Definition two_expired : Service :=
  mkService "ingress-nginx" "default"
    (Some (<[annotationKey "10.0.0.1/32" := past]>
            (<[annotationKey "10.0.0.2/32" := past]>
              (<[mgmtAnnotation := "true"]> ∅))))
    ["10.0.0.2/32"].

Definition two_expired_world : World Fake :=
  mkWorld (mkFake demo_now [two_expired] None [] false) [] [].



Definition failing_list_world : World Fake :=
  mkWorld (mkFake demo_now [two_expired] (Some (ErrGateway "connection refused"))
             [] false) [] [].

(** ** Consistency of a resource

    Every access-rule annotation names a member of the allow-list. *)
Definition consistent (s : Service) : Prop :=
  ∀ r v, annotation s (annotationKey r) = Some v → r ∈ LoadBalancerSourceRanges s.

(** [s'] is [s] after some retractions: rules and ranges only go away. *)
Definition shrinks (s s' : Service) : Prop :=
  Name s' = Name s ∧ Namespace s' = Namespace s ∧
  (∀ k, annotation s' k = annotation s k ∨
        (annotation s' k = None ∧ ∃ r, k = annotationKey r)) ∧
  LoadBalancerSourceRanges s' ⊆ LoadBalancerSourceRanges s.

(** The in-memory mutation of [RemoveIpFromService]. *)
Definition retract (iprange : string) (ipranges : list string) (s : Service)
    : Service :=
  removeServiceAnnotation iprange (applySourceRangesToSpec ipranges s).

(** ** The contract of the reconciler in the words of the specification *)

Definition spec_Add (S : list string) (a : string) : result (list string) :=
  if bool_decide (a ∈ S) then Err (ErrAlreadyWhitelisted a) else Ok (S ++ [a]).

Definition spec_Remove (S : list string) (a : string) : result (list string) :=
  if bool_decide (a ∈ S) then Ok (filter (λ x, x ≠ a) S) else Err ErrNotFound.

(** [Remove(Add(S, a), a)] on the code. *)
Definition add_then_remove (S : list string) (a : string) : result (list string) :=
  match reconcileSourceRanges S a "add" with
  | Ok S1 => reconcileSourceRanges S1 a "remove"
  | Err e => Err e
  end.

(** What the swap does: the first entry takes the place of the match and
    the slice loses its first slot. *)
Definition swap_out (pre post : list string) : list string :=
  match pre with
  | [] => post
  | x :: pre' => pre' ++ x :: post
  end.

(** ** Measuring and comparing times *)

(** Lexicographic combination of two comparisons. *)
Definition lexc (c1 c2 : comparison) : comparison :=
  match c1 with Eq => c2 | _ => c1 end.

(** Comparison of two readings field by field, the year first. *)
Definition Time_compare (t1 t2 : Time) : comparison :=
  lexc (year t1 ?= year t2)%Z (lexc (month t1 ?= month t2)%Z
  (lexc (day t1 ?= day t2)%Z (lexc (hour t1 ?= hour t2)%Z
  (lexc (minute t1 ?= minute t2)%Z (second t1 ?= second t2)%Z)))).

(** The reading two days after [t], with the carry written out. *)
Definition two_days_later (t : Time) : Time :=
  let d := (day t + 2)%Z in
  let n := daysIn (month t) (year t) in
  if (n <? d)%Z then
    if (month t =? 12)%Z
    then mkTime (year t + 1) 1 (d - n) (hour t) (minute t) (second t)
    else mkTime (year t) (month t + 1) (d - n) (hour t) (minute t) (second t)
  else mkTime (year t) (month t) d (hour t) (minute t) (second t).

(** Fixed-width, zero-padded decimal fields in front of [rest]. *)
Definition two_digits (n : Z) (rest : string) : string :=
  String (digit (n / 10)) (String (digit (n mod 10)) rest).

Definition four_digits (n : Z) (rest : string) : string :=
  two_digits (n / 100) (two_digits (n mod 100) rest).

(** The shape "YYYY-MM-DD HH:MM:SS" of a formatted reading. *)
Definition layout_string (t : Time) : string :=
  four_digits (year t) (String "-" (two_digits (month t) (String "-"
    (two_digits (day t) (String " " (two_digits (hour t) (String ":"
    (two_digits (minute t) (String ":"
    (two_digits (second t) EmptyString)))))))))).

(** The years the four-digit year field can hold. *)
Definition in_layout_range (t : Time) : Prop := (0 <= year t <= 9999)%Z.


(** ** Grants and sweeps: auxiliary notions *)

(** The object a grant of [r] builds from [s] when the clock reads [t]. *)
Definition granted (r : string) (t : Time) (m : gmap string string)
    (s : Service) : Service :=
  mkService (Name s) (Namespace s)
    (Some (<[annotationKey r := Format (AddDate t 0 0 2)]> m))
    (LoadBalancerSourceRanges s ++ [r]).

(** Every expired access-rule annotation has the form prefix.range with
    the range in the allow-list. *)
Definition expired_backed (now : string) (s : Service) : Prop :=
  ∀ k v, annotation s k = Some v → HasPrefix k annotationKeyPrefix = true →
         String.ltb v now = true →
         ∃ r, k = annotationKey r ∧ r ∈ LoadBalancerSourceRanges s.

(** ** Requests, routing rules and the grant applier *)

Record WhitelistRequest : Type := mkRequest {
  Domain : string;
  IpAddress : string }.

Record IngressBackend : Type := mkBackend {
  ServiceName : string }.

Record HTTPIngressPath : Type := mkPath {
  Path : string;
  Backend : IngressBackend }.

(** [HTTP] is the pointer [IngressRuleValue.HTTP] with its [Paths]; [None]
    is nil. *)
Record IngressRule : Type := mkRule {
  Host : string;
  HTTP : option (list HTTPIngressPath) }.

Record Ingress : Type := mkIngress {
  IngressName : string;
  IngressAnnotations : option (gmap string string);
  Rules : list IngressRule }.

(** The errors of the request path; [ErrCluster] passes on an error of the
    reconciler or of the cluster API. *)
Inductive apply_error : Type :=
| ErrNoCredentials
| ErrNoIngress (f : string)
| ErrUnsupportedController
| ErrNotAutoManaged
| ErrCluster (e : error).

Definition ApplyError (e : apply_error) : string :=
  match e with
  | ErrNoCredentials => "No credentials available"
  | ErrNoIngress f => "No ingress found for domain " +:+ f
  | ErrUnsupportedController => "Only the Nginx ingress controller is supported."
  | ErrNotAutoManaged => "The service is not auto-managed."
  | ErrCluster e => Error e
  end.

Inductive reply (A : Type) : Type :=
| Done (a : A)
| Failed (e : apply_error).
Arguments Done {A} a.
Arguments Failed {A} e.

(** What the request path needs besides [Cluster]: the two ways to a
    client configuration, the construction of a clientset from one, the
    process environment, path joining, the listing of routing rules and
    the reading of one service.  The clientset itself is not a value of
    the model: the cluster operations act on the environment. *)
Class Frontend (E Config : Type) : Type := {
  restInClusterConfig : E → result Config * E;
  clientcmdBuildConfigFromFlags : string → string → E → result Config * E;
  kubernetesNewForConfig : Config → E → option error * E;
  osGetenv : string → E → string;
  filepathJoin : list string → string;
  ingressesList : E → (list Ingress * option error) * E;
  servicesGet : string → string → E → (Service * option error) * E }.

Section Applier.
Context {E Config : Type} `{Cluster E} `{Frontend E Config}.

Definition getClientsetExternal : M E (option error) :=
  let! kubeconfig :=
    (λ w, (Ret (filepathJoin [osGetenv "HOME" (env w); ".kube"; "config"]), w)) in
  let! config := lift_env (clientcmdBuildConfigFromFlags "" kubeconfig) in
  match config with
  | Err e => ret (Some e)
  | Ok config => lift_env (kubernetesNewForConfig config)
  end.

Definition getClientsetInternal : M E (option error) :=
  let! config := lift_env restInClusterConfig in
  match config with
  | Err e => ret (Some e)
  | Ok config => lift_env (kubernetesNewForConfig config)
  end.

Definition GetClientset : M E (option apply_error) :=
  let! err := getClientsetInternal in
  match err with
  | None => ret None
  | Some _ =>
      let! err := getClientsetExternal in
      match err with
      | None => ret None
      | Some _ => ret (Some ErrNoCredentials)
      end
  end.

(** The inner loop of [FindIngForFqdn]: some rule has host [f]. *)
Fixpoint has_host (f : string) (rules : list IngressRule) : bool :=
  match rules with
  | [] => false
  | r :: rules' => if String.eqb (Host r) f then true else has_host f rules'
  end.

Fixpoint find_ingress (f : string) (items : list Ingress) : option Ingress :=
  match items with
  | [] => None
  | i :: items' => if has_host f (Rules i) then Some i else find_ingress f items'
  end.

Definition FindIngForFqdn (f : string) : M E (reply Ingress) :=
  let! (ingresses, err) := lift_env ingressesList in
  match err with
  | Some e => ret (Failed (ErrCluster e))
  | None =>
      match find_ingress f ingresses with
      | Some i => ret (Done i)
      | None => ret (Failed (ErrNoIngress f))
      end
  end.

(** [ing.Spec.Rules[0].IngressRuleValue.HTTP.Paths[0].Backend.ServiceName]:
    an index out of range or a nil pointer panics. *)
Definition first_backend (ing : Ingress) : option string :=
  match Rules ing with
  | [] => None
  | r :: _ =>
      match HTTP r with
      | Some (p :: _) => Some (ServiceName (Backend p))
      | Some [] | None => None
      end
  end.

Definition ingress_class (ing : Ingress) : string :=
  default "" (IngressAnnotations ing ≫= (.!! "kubernetes.io/ingress.class")).

(** [ctx] is the rendering with [%v] of the request time carried by the
    context. *)
Definition ApplyRequestToCluster (ctx : string) (data : WhitelistRequest)
    : M E (reply string) :=
  let! _ := Printf ("Request time: " +:+ ctx +:+ newline) in
  let! err := GetClientset in
  match err with
  | Some e => ret (Failed e)
  | None =>
  let! _ := Printf ("Received ip address " +:+ IpAddress data +:+
                    " for access to domain " +:+ Domain data +:+ newline) in
  let! found := FindIngForFqdn (Domain data) in
  match found with
  | Failed e => ret (Failed e)
  | Done ing =>
  let! _ := Printf ("Ingress name is: " +:+ IngressName ing +:+ newline) in
  match first_backend ing with
  | None => panic
  | Some name =>
  let! _ := Printf ("Service name is: " +:+ name +:+ newline) in
  if String.eqb (ingress_class ing) "nginx" then
    let! (service, err) := lift_env (servicesGet "default" "ingress-nginx") in
    match err with
    | Some e => ret (Failed (ErrCluster e))
    | None =>
    let! _ := Printf ("The service to modify: " +:+ Name service +:+ newline) in
    if negb (IsAutoManaged service) then ret (Failed ErrNotAutoManaged)
    else
      let namespace := Namespace service in
      let! (_, granted) := UpdateServiceSpec (IpAddress data) namespace service in
      match granted with
      | Err e => ret (Failed (ErrCluster e))
      | Ok deadline =>
          let! _ := Printf ("Successfully applied " +:+ IpAddress data +:+
                            " to the service for " +:+ Domain data +:+ newline) in
          ret (Done deadline)
      end
    end
  else ret (Failed ErrUnsupportedController)
  end
  end
  end.

End Applier.

(** [i] has a rule for host [f]. *)
Definition serves (f : string) (i : Ingress) : Prop :=
  ∃ r, r ∈ Rules i ∧ Host r = f.

Section ApplierFacts0.
Context {E Config : Type} `{Cluster E} `{Frontend E Config}.

(** What an outcome of [ApplyRequestToCluster] tells about the request
    and about the updates [sent] during the call. *)
Definition apply_facts (data : WhitelistRequest)
    (o : outcome (reply string)) (sent : list (string * Service)) : Prop :=
  match o with
  | Panic =>
      sent = [] ∧ ∃ ing, serves (Domain data) ing ∧ first_backend ing = None
  | Ret (Failed ErrNoCredentials) => sent = []
  | Ret (Failed (ErrNoIngress f)) => sent = [] ∧ f = Domain data
  | Ret (Failed ErrUnsupportedController) =>
      sent = [] ∧
      ∃ ing, serves (Domain data) ing ∧ ingress_class ing ≠ "nginx"
  | Ret (Failed ErrNotAutoManaged) =>
      sent = [] ∧
      ∃ svc e0, (servicesGet "default" "ingress-nginx" e0).1 = (svc, None) ∧
                IsAutoManaged svc = false
  | Ret (Failed (ErrCluster e)) =>
      sent = [] ∨
      ∃ svc m t e0,
        (servicesGet "default" "ingress-nginx" e0).1 = (svc, None) ∧
        sent = [(Namespace svc, granted (IpAddress data) t m svc)]
  | Ret (Done d) =>
      ∃ ing svc m t e0,
        serves (Domain data) ing ∧ ingress_class ing = "nginx" ∧
        (servicesGet "default" "ingress-nginx" e0).1 = (svc, None) ∧
        IsAutoManaged svc = true ∧ Annotations svc = Some m ∧
        (IpAddress data ∉ LoadBalancerSourceRanges svc) ∧
        d = Format (AddDate t 0 0 2) ∧
        sent = [(Namespace svc, granted (IpAddress data) t m svc)]
  end.

End ApplierFacts0.

(** ** An in-memory front end

    [Fake] with the routing rules, a listing error to inject and the
    outcomes of the two ways to a client configuration. *)

Record Front : Type := mkFront {
  front_cluster : Fake;
  front_ingresses : list Ingress;
  front_listing_error : option error;
  front_in_cluster : option error;
  front_kubeconfig : option error }.

Definition front_with (c : Fake) (e : Front) : Front :=
  mkFront c (front_ingresses e) (front_listing_error e) (front_in_cluster e)
          (front_kubeconfig e).

Definition front_get (ns name : string) (e : Front)
    : (Service * option error) * Front :=
  match List.find (λ o, String.eqb (Namespace o) ns && String.eqb (Name o) name)
                  (fake_store (front_cluster e)) with
  | Some o => ((o, None), e)
  | None => ((mkService "" "" None [], Some (ErrGateway "not found")), e)
  end.

#[export] Instance front_is_cluster : Cluster Front := {
  timeNow e := (fake_clock (front_cluster e), e);
  servicesList e :=
    ((fake_list (front_cluster e)).1, front_with (fake_list (front_cluster e)).2 e);
  servicesUpdate ns s e :=
    ((fake_update ns s (front_cluster e)).1,
     front_with (fake_update ns s (front_cluster e)).2 e);
  mapRange m e := ((fake_range m (front_cluster e)).1, e);
  mapRange_perm := λ m e, mapRange_perm (E := Fake) m (front_cluster e) }.

#[export] Instance front_is_frontend : Frontend Front unit := {
  restInClusterConfig e :=
    (match front_in_cluster e with Some err => Err err | None => Ok tt end, e);
  clientcmdBuildConfigFromFlags _ _ e :=
    (match front_kubeconfig e with Some err => Err err | None => Ok tt end, e);
  kubernetesNewForConfig _ e := (None, e);
  osGetenv _ _ := "/root";
  filepathJoin l := foldr (λ x acc, if String.eqb acc "" then x else x +:+ "/" +:+ acc) "" l;
  ingressesList e :=
    (match front_listing_error e with
     | Some err => ([], Some err)
     | None => (front_ingresses e, None)
     end, e);
  servicesGet := front_get }.







(** A later reading of the clock, and [demo_world] at that time. *)
Definition later_now : Time := mkTime 2018 1 5 12 0 0.

Definition later_world : World Fake :=
  mkWorld (mkFake later_now [demo_service] None [] false) [] [].

(** Two expired rules, both with their range in the allow-list. *)
Definition all_expired : Service :=
  mkService "ingress-nginx" "default"
    (Some (<[annotationKey "10.0.0.1/32" := past]>
            (<[annotationKey "10.0.0.2/32" := past]>
              (<[mgmtAnnotation := "true"]> ∅))))
    ["10.0.0.1/32"; "10.0.0.2/32"].

(** An expired entry under a key that has the prefix but not the dot. *)
Definition dotless : Service :=
  mkService "ingress-nginx" "default"
    (Some (<["service.caretaker.ipaddress" := past]>
            (<[mgmtAnnotation := "true"]> ∅)))
    ["10.0.0.1/32"].

(** The cluster accepts every update from here on. *)
Definition fake_steady (e : Fake) : Prop := fake_update_script e = [].

(** * Properties of the reconciler *)

Example reconcile_add_ex :
  reconcileSourceRanges ["10.0.0.1/32"] "10.0.0.2/32" "add"
  = Ok ["10.0.0.1/32"; "10.0.0.2/32"].
Proof. reflexivity. Qed.

Example reconcile_remove_first_ex :
  reconcileSourceRanges ["a"; "b"; "c"] "a" "remove" = Ok ["b"; "c"].
Proof. reflexivity. Qed.

Example reconcile_remove_second_ex :
  reconcileSourceRanges ["a"; "b"; "c"] "b" "remove" = Ok ["a"; "c"].
Proof. reflexivity. Qed.

Example reconcile_other_ex :
  reconcileSourceRanges ["a"] "a" "swap" = Err (ErrUnsupportedOperation "swap").
Proof. reflexivity. Qed.

Lemma add_scan_None (c : list string) (n : string) :
  add_scan c n = None ↔ n ∉ c.
Proof.
  induction c as [|v c IH]; simpl.
  - split; [intros _; apply not_elem_of_nil | done].
  - destruct (String.eqb_spec v n) as [->|Hne].
    + split; [done | intros Hn; exfalso; apply Hn; left].
    + rewrite IH, not_elem_of_cons.
      split; [split; [congruence | done] | by intros [_ ?]].
Qed.

Lemma add_scan_Some (c : list string) (n v : string) :
  add_scan c n = Some v → v = n ∧ n ∈ c.
Proof.
  induction c as [|x c IH]; simpl; [done|].
  destruct (String.eqb_spec x n) as [->|Hne].
  - intros [= <-]. split; [done | left].
  - intros Hs. destruct (IH Hs) as [-> Hin]. split; [done | by right].
Qed.

Lemma remove_scan_None (c : list string) (n : string) (i : nat)
    (rest : list string) :
  n ∉ rest → remove_scan c n i rest = None.
Proof.
  revert i. induction rest as [|v rest IH]; intros i Hn; simpl; [done|].
  apply not_elem_of_cons in Hn as [Hne Hn].
  destruct (String.eqb_spec v n) as [->|_]; [done | by apply IH].
Qed.

Lemma remove_scan_first (c : list string) (n : string) (i : nat)
    (r1 r2 : list string) :
  n ∉ r1 →
  remove_scan c n i (r1 ++ n :: r2)
  = Some (drop 1 (<[(i + length r1)%nat := c !!! 0%nat]> c)).
Proof.
  revert i. induction r1 as [|v r1 IH]; intros i Hn; simpl.
  - rewrite String.eqb_refl. by rewrite Nat.add_0_r.
  - apply not_elem_of_cons in Hn as [Hne Hn].
    destruct (String.eqb_spec v n) as [->|_]; [done|].
    rewrite IH by done. do 3 f_equal. lia.
Qed.

Lemma reconcile_remove_first_match (pre post : list string) (n : string) :
  n ∉ pre →
  reconcileSourceRanges (pre ++ n :: post) n "remove" = Ok (swap_out pre post).
Proof.
  intros Hn. unfold reconcileSourceRanges. simpl String.eqb. cbv iota.
  rewrite (remove_scan_first _ n 0 pre post Hn). f_equal.
  rewrite Nat.add_0_l.
  replace (length pre) with (length pre + 0)%nat by lia.
  rewrite insert_app_r. destruct pre as [|x pre']; simpl; done.
Qed.

Lemma reconcile_remove_absent (c : list string) (n : string) :
  n ∉ c → reconcileSourceRanges c n "remove" = Err ErrNotFound.
Proof.
  intros Hn. unfold reconcileSourceRanges. simpl String.eqb. cbv iota.
  by rewrite remove_scan_None.
Qed.

Lemma swap_out_perm (pre post : list string) (n : string) :
  n :: swap_out pre post ≡ₚ pre ++ n :: post.
Proof.
  destruct pre as [|x pre']; simpl; [done|].
  rewrite <- !Permutation_middle. apply perm_swap.
Qed.

Lemma reconcile_add_absent (c : list string) (n : string) :
  n ∉ c → reconcileSourceRanges c n "add" = Ok (c ++ [n]).
Proof.
  intros Hn. unfold reconcileSourceRanges. simpl String.eqb. cbv iota.
  apply add_scan_None in Hn. by rewrite Hn.
Qed.

Lemma reconcile_add_present (c : list string) (n : string) :
  n ∈ c → reconcileSourceRanges c n "add" = Err (ErrAlreadyWhitelisted n).
Proof.
  intros Hn. unfold reconcileSourceRanges. simpl String.eqb. cbv iota.
  destruct (add_scan c n) as [v|] eqn:Hs.
  - by apply add_scan_Some in Hs as [-> _].
  - apply add_scan_None in Hs. done.
Qed.

(** C7. Add ([reconcileSourceRanges] with op "add") fails with the
    duplicate-rule error exactly when the range is already in the sequence,
    at whatever position; otherwise it succeeds and returns the sequence
    with the range appended at the end, the existing entries in order. *)
Theorem add_duplicate_or_append (S : list string) (a : string) :
  (reconcileSourceRanges S a "add" = Err (ErrAlreadyWhitelisted a) ↔ a ∈ S) ∧
  (reconcileSourceRanges S a "add" = Ok (S ++ [a]) ↔ a ∉ S) ∧
  (∀ e, reconcileSourceRanges S a "add" = Err e → e = ErrAlreadyWhitelisted a) ∧
  reconcileSourceRanges S a "add" = spec_Add S a.
Proof.
  destruct (decide (a ∈ S)) as [Hin|Hout].
  - pose proof (reconcile_add_present S a Hin) as Hr. rewrite Hr.
    repeat split; try done.
    + intros e [= <-]. done.
    + unfold spec_Add. by rewrite bool_decide_eq_true_2.
  - pose proof (reconcile_add_absent S a Hout) as Hr. rewrite Hr.
    repeat split; try done.
    unfold spec_Add. by rewrite bool_decide_eq_false_2.
Qed.

(** C1 as stated fails: removing the third of three entries returns the
    other two in the opposite order. *)
Lemma remove_reorders_counterexample :
  reconcileSourceRanges ["a"; "b"; "c"] "c" "remove" = Ok ["b"; "a"] ∧
  spec_Remove ["a"; "b"; "c"] "c" = Ok ["a"; "b"] ∧
  reconcileSourceRanges ["a"; "b"; "c"] "c" "remove"
  ≠ spec_Remove ["a"; "b"; "c"] "c".
Proof. repeat split; vm_compute; congruence. Qed.

(** C1, amended. Remove fails with the not-found error when the range is
    absent.  When it is present, with [pre] the entries before its first
    occurrence and [post] those after, Remove succeeds and returns the
    entries of [pre] but the first, then the first entry of [pre], then
    [post]: every original entry except that occurrence of the range (a
    permutation of them), in the original order when the match is the
    first or the second entry, and without the range when it occurred
    once. *)
Theorem remove_swaps_first_into_match (S : list string) (a : string) :
  (a ∉ S → reconcileSourceRanges S a "remove" = Err ErrNotFound) ∧
  (∀ pre post, S = pre ++ a :: post → a ∉ pre →
     reconcileSourceRanges S a "remove" = Ok (swap_out pre post) ∧
     a :: swap_out pre post ≡ₚ S ∧
     ((length pre ≤ 1)%nat → swap_out pre post = pre ++ post) ∧
     (a ∉ post → a ∉ swap_out pre post)) ∧
  (a ∈ S → ∃ S', reconcileSourceRanges S a "remove" = Ok S' ∧ a :: S' ≡ₚ S).
Proof.
  assert (Hpos : ∀ pre post, S = pre ++ a :: post → a ∉ pre →
     reconcileSourceRanges S a "remove" = Ok (swap_out pre post) ∧
     a :: swap_out pre post ≡ₚ S ∧
     ((length pre ≤ 1)%nat → swap_out pre post = pre ++ post) ∧
     (a ∉ post → a ∉ swap_out pre post)).
  { intros pre post -> Hpre. split; [by apply reconcile_remove_first_match|].
    split; [apply swap_out_perm|]. split.
    - destruct pre as [|x [|y pre]]; simpl; [done | done | lia].
    - intros Hpost. destruct pre as [|x pre']; simpl; [done|].
      apply not_elem_of_cons in Hpre as [Hx Hpre'].
      rewrite elem_of_app, elem_of_cons. tauto. }
  split; [apply reconcile_remove_absent|]. split; [exact Hpos|].
  intros Hin. apply list_elem_of_split_l in Hin as (pre & post & -> & Hpre).
  exists (swap_out pre post).
  destruct (Hpos pre post eq_refl Hpre) as (Hr & Hp & _). done.
Qed.

Lemma remove_swaps_first_into_match_witness :
  reconcileSourceRanges ["a"; "b"; "c"; "d"] "c" "remove" = Ok ["b"; "a"; "d"] ∧
  ("c" :: ["b"; "a"; "d"]) ≡ₚ ["a"; "b"; "c"; "d"].
Proof.
  pose proof (remove_swaps_first_into_match ["a"; "b"; "c"; "d"] "c") as (_ & Hs & _).
  destruct (Hs ["a"; "b"] ["d"] eq_refl) as (Hr & Hp & _).
  - rewrite !not_elem_of_cons. repeat split; try discriminate.
    apply not_elem_of_nil.
  - split; [exact Hr | exact Hp].
Defined.

(** C2 as stated fails: with two entries the round trip swaps them. *)
Lemma add_then_remove_counterexample :
  ("a" ∉ ["x"; "y"]) ∧ add_then_remove ["x"; "y"] "a" = Ok ["y"; "x"] ∧
  add_then_remove ["x"; "y"] "a" ≠ Ok ["x"; "y"].
Proof.
  split; [|split; vm_compute; congruence].
  rewrite !not_elem_of_cons. repeat split; try discriminate.
  apply not_elem_of_nil.
Qed.

(** C2, amended. For a sequence S not containing the range, adding it and
    then removing it succeeds and returns S rotated left by one position
    (the entries after the first, then the first): a permutation of S,
    and S itself when S has at most one entry. *)
Theorem add_then_remove_rotates (S : list string) (a : string) :
  a ∉ S →
  add_then_remove S a = Ok (drop 1 S ++ take 1 S) ∧
  drop 1 S ++ take 1 S ≡ₚ S ∧
  ((length S ≤ 1)%nat → add_then_remove S a = Ok S).
Proof.
  intros Hout. unfold add_then_remove.
  rewrite (reconcile_add_absent S a Hout).
  assert (Hr : reconcileSourceRanges (S ++ [a]) a "remove"
               = Ok (drop 1 S ++ take 1 S)).
  { rewrite (reconcile_remove_first_match S [] a Hout).
    destruct S as [|x S']; simpl; [done|]. by rewrite drop_0, take_0. }
  rewrite Hr. split; [done|]. split.
  - destruct S as [|x S']; simpl; [done|].
    rewrite drop_0, take_0. by rewrite <- Permutation_cons_append.
  - intros Hlen. destruct S as [|x [|y S']]; simpl in *; [done | done | lia].
Qed.

Lemma add_then_remove_rotates_witness :
  add_then_remove ["x"; "y"; "z"] "a" = Ok ["y"; "z"; "x"].
Proof.
  refine (proj1 (add_then_remove_rotates ["x"; "y"; "z"] "a" _)).
  rewrite !not_elem_of_cons. repeat split; try discriminate.
  apply not_elem_of_nil.
Defined.

(** * Properties of the clock and of the layout *)

Section TimeFacts.
Local Open Scope Z_scope.

Ltac div_lia := Z.div_mod_to_equations; lia.

Lemma isLeap_cases (y : Z) :
  (isLeap y = true ∧ (y + 4) / 4 - (y + 100) / 100 + (y + 400) / 400
                     = (y + 3) / 4 - (y + 99) / 100 + (y + 399) / 400 + 1) ∨
  (isLeap y = false ∧ (y + 4) / 4 - (y + 100) / 100 + (y + 400) / 400
                      = (y + 3) / 4 - (y + 99) / 100 + (y + 399) / 400).
Proof.
  unfold isLeap.
  destruct (Z.eqb_spec (y mod 4) 0), (Z.eqb_spec (y mod 100) 0),
    (Z.eqb_spec (y mod 400) 0); simpl; [left|right|left|left|right|right|right|right] ;
    (split; [reflexivity|]); div_lia.
Qed.

Lemma days_before_year_succ (y : Z) :
  days_before_year (y + 1) = days_before_year y + (if isLeap y then 366 else 365).
Proof.
  unfold days_before_year.
  replace (y + 1 + 3) with (y + 4) by lia.
  replace (y + 1 + 99) with (y + 100) by lia.
  replace (y + 1 + 399) with (y + 400) by lia.
  destruct (isLeap_cases y) as [[-> Hq]|[-> Hq]]; lia.
Qed.

Lemma days_before_year_mono (y y' : Z) :
  y <= y' → days_before_year y <= days_before_year y'.
Proof. unfold days_before_year. intros Hle. div_lia. Qed.

Lemma month_cases (m : Z) :
  1 <= m <= 12 →
  m = 1 ∨ m = 2 ∨ m = 3 ∨ m = 4 ∨ m = 5 ∨ m = 6 ∨
  m = 7 ∨ m = 8 ∨ m = 9 ∨ m = 10 ∨ m = 11 ∨ m = 12.
Proof. lia. Qed.

Ltac month_split m H :=
  destruct (month_cases m H) as
    [->|[->|[->|[->|[->|[->|[->|[->|[->|[->|[->| ->]]]]]]]]]]].

Lemma daysIn_bounds (m y : Z) : 28 <= daysIn m y <= 31.
Proof.
  unfold daysIn. destruct (m =? 2), (isLeap y),
    ((m =? 4) || (m =? 6) || (m =? 9) || (m =? 11))%bool; lia.
Qed.

Lemma days_before_month_succ (m y : Z) :
  1 <= m < 12 →
  days_before_month (m + 1) y = days_before_month m y + daysIn m y.
Proof.
  intros Hm. assert (Hm' : 1 <= m <= 12) by lia.
  month_split m Hm'; try lia;
    unfold days_before_month, daysIn; simpl; destruct (isLeap y); reflexivity.
Qed.

Lemma days_before_month_last (y : Z) :
  days_before_month 12 y + daysIn 12 y = if isLeap y then 366 else 365.
Proof. unfold days_before_month, daysIn; simpl. destruct (isLeap y); reflexivity. Qed.

Lemma days_before_month_first (y : Z) : days_before_month 1 y = 0.
Proof. unfold days_before_month; simpl. by rewrite andb_false_r. Qed.

Lemma days_before_month_mono (m m' y : Z) :
  1 <= m → m <= m' → m' <= 12 →
  days_before_month m y <= days_before_month m' y.
Proof.
  intros H1 Hle H12.
  assert (Hm : 1 <= m <= 12) by lia. assert (Hm' : 1 <= m' <= 12) by lia.
  month_split m Hm; month_split m' Hm'; try lia;
    unfold days_before_month; simpl; destruct (isLeap y); simpl; lia.
Qed.

Lemma abs_days_year_bounds (t : Time) :
  valid_time t →
  days_before_year (year t) <= abs_days t < days_before_year (year t + 1).
Proof.
  intros (Hm & Hd & _). unfold abs_days.
  rewrite days_before_year_succ, <- days_before_month_last.
  assert (H1 : 0 <= days_before_month (month t) (year t)).
  { rewrite <- (days_before_month_first (year t)).
    apply days_before_month_mono; lia. }
  destruct (decide (month t = 12)) as [Heq|Hne].
  - rewrite Heq in *. lia.
  - assert (H3 := days_before_month_succ (month t) (year t) ltac:(lia)).
    assert (H4 := days_before_month_mono (month t + 1) 12 (year t)
                    ltac:(lia) ltac:(lia) ltac:(lia)).
    pose proof (daysIn_bounds 12 (year t)). lia.
Qed.

Lemma Time_compare_Lt (t1 t2 : Time) :
  valid_time t1 → valid_time t2 →
  Time_compare t1 t2 = Lt → abs_seconds t1 < abs_seconds t2.
Proof.
  intros V1 V2. pose proof (abs_days_year_bounds t1 V1) as B1.
  pose proof (abs_days_year_bounds t2 V2) as B2.
  destruct V1 as (Hm1 & Hd1 & Hh1 & Hmi1 & Hs1).
  destruct V2 as (Hm2 & Hd2 & Hh2 & Hmi2 & Hs2).
  unfold Time_compare, lexc, abs_seconds.
  destruct (Z.compare_spec (year t1) (year t2)) as [Hy|Hy|Hy]; [|intros _|done].
  2:{ assert (H0 := days_before_year_mono (year t1 + 1) (year t2) ltac:(lia)).
      lia. }
  destruct (Z.compare_spec (month t1) (month t2)) as [Hmo|Hmo|Hmo]; [|intros _|done].
  2:{ unfold abs_days. rewrite Hy.
      assert (H3 := days_before_month_succ (month t1) (year t2) ltac:(lia)).
      assert (H4 := days_before_month_mono (month t1 + 1) (month t2) (year t2)
                      ltac:(lia) ltac:(lia) ltac:(lia)).
      rewrite Hy in Hd1. lia. }
  unfold abs_days. rewrite Hy, Hmo.
  destruct (Z.compare_spec (day t1) (day t2)) as [Hd|Hd|Hd]; [|intros _; lia|done].
  destruct (Z.compare_spec (hour t1) (hour t2)) as [Hh|Hh|Hh]; [|intros _; lia|done].
  destruct (Z.compare_spec (minute t1) (minute t2)) as [Hmi|Hmi|Hmi]; [|intros _; lia|done].
  intros Hs. change (second t1 < second t2) in Hs. lia.
Qed.

Lemma lexc_antisym (a b c d : comparison) :
  a = CompOpp b → c = CompOpp d → lexc a c = CompOpp (lexc b d).
Proof. intros -> ->. by destruct b. Qed.

Lemma Time_compare_antisym (t1 t2 : Time) :
  Time_compare t2 t1 = CompOpp (Time_compare t1 t2).
Proof.
  unfold Time_compare.
  repeat (apply lexc_antisym; [apply Z.compare_antisym|]).
  apply Z.compare_antisym.
Qed.

Lemma Time_compare_Eq (t1 t2 : Time) :
  Time_compare t1 t2 = Eq → t1 = t2.
Proof.
  destruct t1, t2. unfold Time_compare, lexc; simpl.
  repeat match goal with
  | |- context [?a ?= ?b] => destruct (Z.compare_spec a b); try done; subst
  end; done.
Qed.

Lemma Time_compare_abs_seconds (t1 t2 : Time) :
  valid_time t1 → valid_time t2 →
  Time_compare t1 t2 = (abs_seconds t1 ?= abs_seconds t2).
Proof.
  intros V1 V2. destruct (Time_compare t1 t2) eqn:Hc.
  - apply Time_compare_Eq in Hc as ->. by rewrite Z.compare_refl.
  - symmetry. apply Z.compare_lt_iff. by apply Time_compare_Lt.
  - symmetry. apply Z.compare_gt_iff. apply Time_compare_Lt; try done.
    rewrite Time_compare_antisym, Hc. done.
Qed.

Lemma AddDate_two_days (t : Time) :
  valid_time t → AddDate t 0 0 2 = two_days_later t.
Proof.
  intros (Hm & Hd & _). unfold AddDate, Date, two_days_later.
  rewrite !Z.add_0_r.
  replace ((month t - 1) / 12) with 0 by div_lia.
  replace ((month t - 1) mod 12 + 1) with (month t) by div_lia.
  rewrite Z.add_0_r.
  assert (Hfuel : ∃ k, Z.to_nat (day t + 2) = S (S k)).
  { exists (Z.to_nat (day t)). lia. }
  destruct Hfuel as [k ->].
  pose proof (daysIn_bounds (month t) (year t)) as Hb.
  cbn [norm_day].
  destruct (Z.ltb_spec (daysIn (month t) (year t)) (day t + 2)) as [Hov|Hin];
    [|reflexivity].
  destruct (Z.eqb_spec (month t) 12) as [H12|H12].
  - pose proof (daysIn_bounds 1 (year t + 1)).
    destruct k; cbn [norm_day];
      destruct (Z.ltb_spec (daysIn 1 (year t + 1))
                  (day t + 2 - daysIn (month t) (year t))); try lia; reflexivity.
  - pose proof (daysIn_bounds (month t + 1) (year t)).
    destruct k; cbn [norm_day];
      destruct (Z.ltb_spec (daysIn (month t + 1) (year t))
                  (day t + 2 - daysIn (month t) (year t))); try lia; reflexivity.
Qed.

Lemma two_days_later_valid (t : Time) :
  valid_time t → valid_time (two_days_later t).
Proof.
  intros (Hm & Hd & Hrest). unfold two_days_later.
  pose proof (daysIn_bounds (month t) (year t)) as Hb.
  destruct (Z.ltb_spec (daysIn (month t) (year t)) (day t + 2)) as [Hov|Hin].
  - destruct (Z.eqb_spec (month t) 12) as [H12|H12]; unfold valid_time; simpl.
    + pose proof (daysIn_bounds 1 (year t + 1)). repeat split; try lia; apply Hrest.
    + pose proof (daysIn_bounds (month t + 1) (year t)).
      repeat split; try lia; apply Hrest.
  - unfold valid_time; simpl. repeat split; try lia; apply Hrest.
Qed.

Lemma two_days_later_abs_days (t : Time) :
  valid_time t → abs_days (two_days_later t) = abs_days t + 2.
Proof.
  intros (Hm & Hd & _). unfold two_days_later.
  destruct (Z.ltb_spec (daysIn (month t) (year t)) (day t + 2)) as [Hov|Hin].
  - destruct (Z.eqb_spec (month t) 12) as [H12|H12]; unfold abs_days; simpl.
    + rewrite days_before_year_succ, days_before_month_first, H12.
      rewrite <- days_before_month_last. lia.
    + rewrite days_before_month_succ by lia. lia.
  - unfold abs_days; simpl. lia.
Qed.

Lemma AddDate_two_days_seconds (t : Time) :
  valid_time t →
  valid_time (AddDate t 0 0 2) ∧
  abs_seconds (AddDate t 0 0 2) = abs_seconds t + 2 * 86400 ∧
  year t <= year (AddDate t 0 0 2) <= year t + 1.
Proof.
  intros V. rewrite (AddDate_two_days t V).
  split; [by apply two_days_later_valid|]. split.
  - unfold abs_seconds. rewrite (two_days_later_abs_days t V).
    assert (Hc : hour (two_days_later t) = hour t ∧
                 minute (two_days_later t) = minute t ∧
                 second (two_days_later t) = second t).
    { unfold two_days_later.
      destruct (_ <? _); [destruct (_ =? _)|]; simpl; done. }
    destruct Hc as (-> & -> & ->). lia.
  - unfold two_days_later.
    destruct (_ <? _); [destruct (_ =? _)|]; simpl; lia.
Qed.

(** ** Formatting *)

Lemma digits_step (fuel : nat) (u : Z) (acc : string) :
  digits (S fuel) u acc
  = if 10 <=? u then digits fuel (u / 10) (String (digit (u mod 10)) acc)
    else String (digit u) acc.
Proof. reflexivity. Qed.

Lemma digits_small (fuel : nat) (u : Z) (acc : string) :
  u < 10 → digits (S fuel) u acc = String (digit u) acc.
Proof.
  intros Hu. rewrite digits_step.
  destruct (Z.leb_spec 10 u); [lia | reflexivity].
Qed.

Lemma digits_large (fuel : nat) (u : Z) (acc : string) :
  10 <= u →
  digits (S fuel) u acc = digits fuel (u / 10) (String (digit (u mod 10)) acc).
Proof.
  intros Hu. rewrite digits_step.
  destruct (Z.leb_spec 10 u); [reflexivity | lia].
Qed.

Lemma appendInt_2 (n : Z) :
  0 <= n < 100 → appendInt n 2 = two_digits n EmptyString.
Proof.
  intros Hn. unfold appendInt, two_digits.
  rewrite Z.abs_eq by lia.
  destruct (Z.ltb_spec n 0) as [?|_]; [lia|].
  destruct (Z_lt_le_dec n 10) as [Hs|Hl].
  - rewrite digits_small by done.
    replace (n / 10) with 0 by div_lia.
    replace (n mod 10) with n by div_lia. reflexivity.
  - rewrite digits_large by done.
    rewrite digits_small by div_lia. reflexivity.
Qed.

Lemma appendInt_4 (n : Z) :
  0 <= n < 10000 → appendInt n 4 = four_digits n EmptyString.
Proof.
  intros Hn. unfold appendInt, four_digits, two_digits.
  rewrite Z.abs_eq by lia.
  destruct (Z.ltb_spec n 0) as [?|_]; [lia|].
  replace (n mod 100 / 10) with (n / 10 mod 10) by div_lia.
  replace (n mod 100 mod 10) with (n mod 10) by div_lia.
  replace (n / 100 / 10) with (n / 10 / 10 / 10) by div_lia.
  replace (n / 100 mod 10) with (n / 10 / 10 mod 10) by div_lia.
  destruct (Z_lt_le_dec n 10) as [H1|H1].
  { rewrite digits_small by done.
    replace (n / 10) with 0 by div_lia.
    replace (n mod 10) with n by div_lia. reflexivity. }
  rewrite digits_large by done.
  destruct (Z_lt_le_dec (n / 10) 10) as [H2|H2].
  { rewrite digits_small by done.
    replace (n / 10 / 10) with 0 by div_lia.
    replace (n / 10 mod 10) with (n / 10) by div_lia. reflexivity. }
  rewrite digits_large by done.
  destruct (Z_lt_le_dec (n / 10 / 10) 10) as [H3|H3].
  { rewrite digits_small by done.
    replace (n / 10 / 10 / 10) with 0 by div_lia.
    replace (n / 10 / 10 mod 10) with (n / 10 / 10) by div_lia. reflexivity. }
  rewrite digits_large by done.
  rewrite digits_small by div_lia. reflexivity.
Qed.

Lemma Format_fixed_width (t : Time) :
  valid_time t → in_layout_range t → Format t = layout_string t.
Proof.
  intros (Hm & Hd & Hh & Hmi & Hs) Hy. unfold Format, layout_string.
  pose proof (daysIn_bounds (month t) (year t)).
  rewrite appendInt_4 by (unfold in_layout_range in Hy; lia).
  rewrite !appendInt_2 by lia. reflexivity.
Qed.

(** ** Comparing formatted times *)

Lemma digit_compare (a b : Z) :
  0 <= a < 10 → 0 <= b < 10 →
  Ascii.compare (digit a) (digit b) = (a ?= b).
Proof.
  intros Ha Hb. unfold Ascii.compare, digit.
  rewrite !N_ascii_embedding by lia.
  rewrite Z2N.inj_compare by lia. apply Z.add_compare_mono_l.
Qed.

Lemma compare_cons (c1 c2 : ascii) (s1 s2 : string) :
  String.compare (String c1 s1) (String c2 s2)
  = lexc (Ascii.compare c1 c2) (String.compare s1 s2).
Proof. simpl. unfold lexc. by destruct (Ascii.compare c1 c2). Qed.

Lemma compare_same_head (c : ascii) (s1 s2 : string) :
  String.compare (String c s1) (String c s2) = String.compare s1 s2.
Proof.
  rewrite compare_cons.
  replace (Ascii.compare c c) with Eq; [done|].
  symmetry. unfold Ascii.compare. apply N.compare_refl.
Qed.

Lemma lexc_assoc (a b c : comparison) : lexc (lexc a b) c = lexc a (lexc b c).
Proof. by destruct a. Qed.

Lemma two_digits_lexc (a b : Z) :
  0 <= a < 100 → 0 <= b < 100 →
  lexc (a / 10 ?= b / 10) (a mod 10 ?= b mod 10) = (a ?= b).
Proof.
  intros Ha Hb. unfold lexc.
  destruct (Z.compare_spec (a / 10) (b / 10)) as [Hq|Hq|Hq];
    destruct (Z.compare_spec (a mod 10) (b mod 10)) as [Hr|Hr|Hr];
    symmetry;
    first [ apply Z.compare_eq_iff | apply Z.compare_lt_iff
          | apply Z.compare_gt_iff ]; div_lia.
Qed.

Lemma compare_two_digits (a b : Z) (s1 s2 : string) :
  0 <= a < 100 → 0 <= b < 100 →
  String.compare (two_digits a s1) (two_digits b s2)
  = lexc (a ?= b) (String.compare s1 s2).
Proof.
  intros Ha Hb. unfold two_digits.
  rewrite !compare_cons, !digit_compare by div_lia.
  by rewrite <- lexc_assoc, two_digits_lexc.
Qed.

Lemma four_digits_lexc (a b : Z) :
  0 <= a < 10000 → 0 <= b < 10000 →
  lexc (a / 100 ?= b / 100) (a mod 100 ?= b mod 100) = (a ?= b).
Proof.
  intros Ha Hb. unfold lexc.
  destruct (Z.compare_spec (a / 100) (b / 100)) as [Hq|Hq|Hq];
    destruct (Z.compare_spec (a mod 100) (b mod 100)) as [Hr|Hr|Hr];
    symmetry;
    first [ apply Z.compare_eq_iff | apply Z.compare_lt_iff
          | apply Z.compare_gt_iff ]; div_lia.
Qed.

Lemma compare_four_digits (a b : Z) (s1 s2 : string) :
  0 <= a < 10000 → 0 <= b < 10000 →
  String.compare (four_digits a s1) (four_digits b s2)
  = lexc (a ?= b) (String.compare s1 s2).
Proof.
  intros Ha Hb. unfold four_digits.
  rewrite !compare_two_digits by div_lia.
  by rewrite <- lexc_assoc, four_digits_lexc.
Qed.

Lemma Format_compare (t1 t2 : Time) :
  valid_time t1 → in_layout_range t1 → valid_time t2 → in_layout_range t2 →
  String.compare (Format t1) (Format t2) = Time_compare t1 t2.
Proof.
  intros V1 R1 V2 R2. rewrite !Format_fixed_width by done.
  unfold layout_string.
  destruct V1 as (Hm1 & Hd1 & Hh1 & Hmi1 & Hs1).
  destruct V2 as (Hm2 & Hd2 & Hh2 & Hmi2 & Hs2).
  pose proof (daysIn_bounds (month t1) (year t1)).
  pose proof (daysIn_bounds (month t2) (year t2)).
  unfold in_layout_range in *.
  rewrite compare_four_digits, compare_same_head by lia.
  do 2 rewrite compare_two_digits, compare_same_head by lia.
  do 2 rewrite compare_two_digits, compare_same_head by lia.
  rewrite compare_two_digits by lia. simpl String.compare.
  unfold Time_compare. by destruct (second t1 ?= second t2).
Qed.

Lemma Format_ltb (t1 t2 : Time) :
  valid_time t1 → in_layout_range t1 → valid_time t2 → in_layout_range t2 →
  String.ltb (Format t1) (Format t2) = (abs_seconds t1 <? abs_seconds t2).
Proof.
  intros V1 R1 V2 R2. unfold String.ltb, Z.ltb.
  by rewrite Format_compare, Time_compare_abs_seconds.
Qed.


End TimeFacts.

(** * Properties of the codec *)

Section Codec.
Context {E : Type} `{Cluster E}.

Lemma iterate_loop_live (now a v : string) (keys : list string) (s : Service)
    (w : World E) :
  annotation s a = Some v → HasPrefix a annotationKeyPrefix = true →
  String.ltb v now = false →
  iterate_loop now (a :: keys) s w
  = iterate_loop now keys s
      (mkWorld (env w)
         (stdout w ++ ["Rule for " +:+ a +:+ " has not expired yet" +:+ newline])
         (updates w)).
Proof. intros Ha Hp Hv. simpl. rewrite Ha, Hp, Hv. reflexivity. Qed.

Lemma iterate_loop_expired (now a v : string) (keys : list string) (s : Service)
    (w : World E) :
  annotation s a = Some v → HasPrefix a annotationKeyPrefix = true →
  String.ltb v now = true →
  iterate_loop now (a :: keys) s w
  = (let! _ := Printf ("Time to remove this rule: " +:+ a +:+ newline) in
     let! (s', err) :=
       RemoveIpFromService (TrimPrefix a (annotationKeyPrefix +:+ ".")) s in
     match err with
     | Some e => ret (s', Some e)
     | None => iterate_loop now keys s'
     end) w.
Proof. intros Ha Hp Hv. simpl. rewrite Ha, Hp, Hv. reflexivity. Qed.

Lemma iterate_loop_skip (now a : string) (keys : list string) (s : Service)
    (w : World E) :
  annotation s a = None ∨ HasPrefix a annotationKeyPrefix = false →
  iterate_loop now (a :: keys) s w = iterate_loop now keys s w.
Proof.
  intros [Ha|Hp]; simpl; [by rewrite Ha|].
  rewrite Hp. by destruct (annotation s a).
Qed.

(** C5. For every range and every resource whose annotation map is not
    nil, [updateServiceAnnotation] returns (it does not panic) the current
    time plus two days in the layout "2006-01-02 15:04:05", and stores
    that same string under the key prefix.range; nothing else of the
    resource changes and nothing is printed.  For a clock reading that is
    a valid date the deadline is exactly 2 * 86400 seconds later, and up
    to year 9998 the string has the zero-padded shape
    "YYYY-MM-DD HH:MM:SS". *)
Theorem stamp_two_days_ahead (iprange : string) (s : Service)
    (m : gmap string string) (w : World E) :
  Annotations s = Some m →
  let now := (timeNow (env w)).1 in
  let deadline := Format (AddDate now 0 0 2) in
  updateServiceAnnotation iprange s w
  = (Ret (deadline,
          mkService (Name s) (Namespace s)
            (Some (<[annotationKeyPrefix +:+ "." +:+ iprange := deadline]> m))
            (LoadBalancerSourceRanges s)),
     mkWorld (timeNow (env w)).2 (stdout w) (updates w)) ∧
  (valid_time now →
   valid_time (AddDate now 0 0 2) ∧
   abs_seconds (AddDate now 0 0 2) = (abs_seconds now + 2 * 86400)%Z ∧
   ((0 ≤ year now ≤ 9998)%Z → deadline = layout_string (AddDate now 0 0 2))).
Proof.
  intros Hm now deadline. split.
  - unfold updateServiceAnnotation, bind, Now, lift_env. subst now deadline.
    destruct (timeNow (env w)) as [t e]. simpl. rewrite Hm. reflexivity.
  - intros V. destruct (AddDate_two_days_seconds now V) as (V' & Hs & Hy).
    split; [done|]. split; [done|]. intros Hr. subst deadline.
    apply Format_fixed_width; [done|]. unfold in_layout_range. lia.
Qed.


End Codec.

Lemma stamp_two_days_ahead_witness :
  updateServiceAnnotation "10.0.0.1/32" demo_service demo_world
  = (Ret ("2018-01-01 23:59:58",
          mkService "ingress-nginx" "default"
            (Some (<["service.caretaker.ipaddr.10.0.0.1/32" := "2018-01-01 23:59:58"]>
                     (<[mgmtAnnotation := "true"]> ∅)))
            ["192.168.0.0/16"]),
     demo_world) ∧
  abs_seconds (AddDate demo_now 0 0 2) = (abs_seconds demo_now + 2 * 86400)%Z.
Proof.
  pose proof (stamp_two_days_ahead (E := Fake) "10.0.0.1/32" demo_service
                (<[mgmtAnnotation := "true"]> ∅) demo_world eq_refl)
    as [Hrun Hlater].
  split; [exact Hrun|].
  refine (proj1 (proj2 (Hlater _))).
  vm_compute; intuition discriminate.
Defined.


(** * Properties of the sweep *)

Lemma annotationKey_inj (r r' : string) :
  annotationKey r = annotationKey r' → r = r'.
Proof. cbv [annotationKey annotationKeyPrefix String.append]. by intros [= ->]. Qed.

Lemma annotationKey_HasPrefix (r : string) :
  HasPrefix (annotationKey r) annotationKeyPrefix = true.
Proof. destruct r; reflexivity. Qed.

Lemma TrimPrefix_annotationKey (r : string) :
  TrimPrefix (annotationKey r) (annotationKeyPrefix +:+ ".") = r.
Proof.
  unfold TrimPrefix. replace (HasPrefix _ _) with true by (destruct r; reflexivity).
  reflexivity.
Qed.

Lemma mgmtAnnotation_not_key (r : string) : mgmtAnnotation ≠ annotationKey r.
Proof. cbv [mgmtAnnotation annotationKey annotationKeyPrefix String.append]. discriminate. Qed.

Lemma mgmtAnnotation_no_prefix :
  HasPrefix mgmtAnnotation annotationKeyPrefix = false.
Proof. reflexivity. Qed.

Section Sweep.
Context {E : Type} `{Cluster E}.

Lemma RemoveIpFromService_absent (ip : string) (s : Service) (w : World E) (e : error) :
  reconcileSourceRanges (LoadBalancerSourceRanges s) ip "remove" = Err e →
  RemoveIpFromService ip s w = (Ret (s, Some e), w).
Proof. intros Hr. unfold RemoveIpFromService. by rewrite Hr. Qed.

Lemma RemoveIpFromService_present (ip : string) (s : Service) (w : World E)
    (r : list string) :
  reconcileSourceRanges (LoadBalancerSourceRanges s) ip "remove" = Ok r →
  RemoveIpFromService ip s w
  = (Ret (retract ip r s, (servicesUpdate (Namespace s) (retract ip r s) (env w)).1),
     mkWorld (servicesUpdate (Namespace s) (retract ip r s) (env w)).2
             (stdout w) (updates w ++ [(Namespace s, retract ip r s)])).
Proof.
  intros Hr. unfold RemoveIpFromService. rewrite Hr.
  unfold bind, Update, ret, retract.
  by destruct (servicesUpdate _ _ _) as [err e].
Qed.

Lemma reconcile_remove_cases (c : list string) (n : string) :
  ((n ∉ c) ∧ reconcileSourceRanges c n "remove" = Err ErrNotFound) ∨
  (∃ pre post, c = pre ++ n :: post ∧ (n ∉ pre) ∧
     reconcileSourceRanges c n "remove" = Ok (swap_out pre post)).
Proof.
  destruct (decide (n ∈ c)) as [Hin|Hout].
  - right. apply list_elem_of_split_l in Hin as (pre & post & -> & Hpre).
    exists pre, post. by rewrite reconcile_remove_first_match.
  - left. by rewrite reconcile_remove_absent.
Qed.

Lemma reconcile_remove_Ok (c r : list string) (n : string) :
  reconcileSourceRanges c n "remove" = Ok r →
  (n :: r) ≡ₚ c ∧ r ⊆ c ∧ ∀ x, x ∈ c → x ≠ n → x ∈ r.
Proof.
  destruct (reconcile_remove_cases c n) as [[_ ->]|(pre & post & -> & Hpre & ->)];
    [done|].
  intros [= <-]. pose proof (swap_out_perm pre post n) as Hp.
  split; [done|]. split.
  - intros x Hx. rewrite <- Hp. by right.
  - intros x Hx Hne. rewrite <- Hp in Hx. apply elem_of_cons in Hx as [->|Hx]; done.
Qed.

Lemma annotation_retract (ip : string) (r : list string) (s : Service) (k : string) :
  annotation (retract ip r s) k
  = if decide (k = annotationKey ip) then None else annotation s k.
Proof.
  unfold annotation, retract, removeServiceAnnotation, applySourceRangesToSpec.
  simpl. destruct (Annotations s) as [m|]; simpl.
  - destruct (decide (k = annotationKey ip)) as [->|Hne].
    + apply lookup_delete_eq.
    + by apply lookup_delete_ne.
  - by destruct (decide _).
Qed.

Lemma retract_consistent (ip : string) (r : list string) (s : Service) :
  reconcileSourceRanges (LoadBalancerSourceRanges s) ip "remove" = Ok r →
  consistent s → consistent (retract ip r s).
Proof.
  intros Hr Hc x v. rewrite annotation_retract.
  destruct (decide _) as [|Hne]; [done|]. intros Hx.
  apply reconcile_remove_Ok in Hr as (_ & _ & Hkeep).
  change (LoadBalancerSourceRanges (retract ip r s)) with r.
  apply Hkeep; [by eapply Hc|]. intros ->. done.
Qed.

Lemma shrinks_refl (s : Service) : shrinks s s.
Proof. repeat split; try done. intros k. by left. Qed.

Lemma shrinks_trans (s1 s2 s3 : Service) :
  shrinks s1 s2 → shrinks s2 s3 → shrinks s1 s3.
Proof.
  intros (Hn & Hns & Ha & Hr) (Hn' & Hns' & Ha' & Hr').
  split; [congruence|]. split; [congruence|]. split.
  - intros k. destruct (Ha' k) as [->|[-> Hk]]; [apply Ha | by right].
  - by etrans.
Qed.

Lemma retract_shrinks (ip : string) (r : list string) (s : Service) :
  reconcileSourceRanges (LoadBalancerSourceRanges s) ip "remove" = Ok r →
  shrinks s (retract ip r s).
Proof.
  intros Hr. split; [done|]. split; [done|]. split.
  - intros k. rewrite annotation_retract.
    destruct (decide _) as [->|]; [right; eauto | by left].
  - by apply reconcile_remove_Ok in Hr as (_ & ? & _).
Qed.

(** The loop returns, and whatever holds of the resource and survives a
    retraction holds of the final resource and of every object sent. *)
Lemma iterate_loop_inv (P : Service → Prop) (now : string) :
  (∀ s ip r, P s →
     reconcileSourceRanges (LoadBalancerSourceRanges s) ip "remove" = Ok r →
     P (retract ip r s)) →
  ∀ (keys : list string) (s : Service) (w : World E), P s →
  ∃ s' err w' sent out,
    iterate_loop now keys s w = (Ret (s', err), w') ∧ P s' ∧
    updates w' = updates w ++ sent ∧
    Forall (λ u, P u.2 ∧ u.1 = Namespace u.2) sent ∧
    stdout w' = stdout w ++ out.
Proof.
  intros HP. induction keys as [|a keys IH]; intros s w Hs.
  { exists s, None, w, [], []. by rewrite !app_nil_r. }
  assert (Hskip : ∀ w0 out0, updates w0 = updates w → stdout w0 = stdout w ++ out0 →
     ∃ s' err w' sent out,
       iterate_loop now keys s w0 = (Ret (s', err), w') ∧ P s' ∧
       updates w' = updates w ++ sent ∧
       Forall (λ u, P u.2 ∧ u.1 = Namespace u.2) sent ∧
       stdout w' = stdout w ++ out).
  { intros w0 out0 Hu Ho.
    destruct (IH s w0 Hs) as (s' & err & w' & sent & out & Hrun & Hs' & Hu' & Hf & Ho').
    exists s', err, w', sent, (out0 ++ out). rewrite Hrun.
    repeat split; try done; [congruence | by rewrite Ho', Ho, app_assoc]. }
  simpl. destruct (annotation s a) as [v|];
    [|apply (Hskip w []); by rewrite ?app_nil_r].
  destruct (HasPrefix a annotationKeyPrefix); [|apply (Hskip w []); by rewrite ?app_nil_r].
  destruct (String.ltb v now); [|by eapply Hskip].
  unfold bind at 1. unfold Printf at 1. unfold bind at 1.
  set (ip := TrimPrefix a (annotationKeyPrefix +:+ ".")).
  set (w1 := mkWorld (env w) _ (updates w)).
  destruct (reconcileSourceRanges (LoadBalancerSourceRanges s) ip "remove")
    as [r|e] eqn:Hr.
  - rewrite (RemoveIpFromService_present ip s w1 r Hr).
    set (s1 := retract ip r s). assert (Hs1 : P s1) by by apply HP.
    destruct (servicesUpdate (Namespace s) s1 (env w1)) as [[e|] e1]; simpl.
    + eexists s1, (Some e), _, [(Namespace s, s1)], _.
      split; [reflexivity|]. repeat split; try done. by constructor.
    + match goal with |- context [iterate_loop now keys s1 ?w2] =>
        destruct (IH s1 w2 Hs1) as (s' & err & w' & sent & out & Hrun & Hs' & Hu' & Hf & Ho')
      end.
      rewrite Hrun. eexists s', err, w', ((Namespace s, s1) :: sent), _.
      split; [reflexivity|]. split; [done|]. split.
      { rewrite Hu'. simpl. by rewrite <- app_assoc. }
      split; [by constructor|]. rewrite Ho'. simpl. by rewrite <- app_assoc.
  - rewrite (RemoveIpFromService_absent ip s w1 e Hr).
    eexists s, (Some e), w1, [], _. split; [reflexivity|].
    repeat split; try done. simpl. by rewrite app_nil_r.
Qed.

Lemma IterateAnnotations_run (s : Service) (w : World E) :
  IterateAnnotations s w
  = match iterate_loop (sweep_now w) (range_keys s (timeNow (env w)).2).1 s
            (sweep_start s w) with
    | (Ret (s', Some e), w') => (Ret (s', Some e), w')
    | (Ret (s', None), w') =>
        (Ret (s', None),
         mkWorld (env w')
           (stdout w' ++ ["Finished checking rules for service " +:+ Name s' +:+ newline])
           (updates w'))
    | (Panic, w') => (Panic, w')
    end.
Proof.
  unfold IterateAnnotations, sweep_now, sweep_start, range_keys.
  unfold bind at 1. unfold Now, lift_env at 1.
  destruct (timeNow (env w)) as [t e1]. simpl.
  unfold bind at 1. unfold Range.
  destruct (Annotations s) as [m|]; simpl.
  - unfold lift_env. simpl. destruct (mapRange m e1) as [keys e2]. simpl.
    unfold bind at 1.
    destruct (iterate_loop (Format t) keys s _) as [[[s' [e|]]|] w']; reflexivity.
  - reflexivity.
Qed.

Lemma IterateAnnotations_inv (P : Service → Prop) :
  (∀ s ip r, P s →
     reconcileSourceRanges (LoadBalancerSourceRanges s) ip "remove" = Ok r →
     P (retract ip r s)) →
  ∀ (s : Service) (w : World E), P s →
  ∃ s' err w' sent out,
    IterateAnnotations s w = (Ret (s', err), w') ∧ P s' ∧
    updates w' = updates w ++ sent ∧
    Forall (λ u, P u.2 ∧ u.1 = Namespace u.2) sent ∧
    stdout w' = stdout w ++ out.
Proof.
  intros HP s w Hs. rewrite IterateAnnotations_run.
  destruct (iterate_loop_inv P (sweep_now w) HP
              (range_keys s (timeNow (env w)).2).1 s (sweep_start s w) Hs)
    as (s' & err & w' & sent & out & -> & Hs' & Hu & Hf & Ho).
  destruct err as [e|].
  - by exists s', (Some e), w', sent, out.
  - eexists s', None, _, sent, _. split; [reflexivity|].
    repeat split; try done. simpl. rewrite Ho. by rewrite <- app_assoc.
Qed.

(** What one resource contributes to a tick. *)
Lemma worker_items_cons (s : Service) (items : list Service) (w : World E) :
  worker_items (s :: items) w
  = if IsAutoManaged s then
      match IterateAnnotations s w with
      | (Ret (_, Some e), w') =>
          worker_items items
            (mkWorld (env w') (stdout w' ++ [Error e +:+ newline]) (updates w'))
      | (Ret (_, None), w') => worker_items items w'
      | (Panic, w') => (Panic, w')
      end
    else worker_items items w.
Proof.
  simpl. unfold bind at 1. destruct (IsAutoManaged s); [|reflexivity].
  unfold bind at 1.
  destruct (IterateAnnotations s w) as [[[s' [e|]]|] w']; reflexivity.
Qed.

Lemma worker_items_inv (items : list Service) (w : World E) :
  ∃ w' sent out,
    worker_items items w = (Ret tt, w') ∧
    updates w' = updates w ++ sent ∧
    Forall (λ u, ∃ s, s ∈ items ∧ IsAutoManaged s = true ∧
                      shrinks s u.2 ∧ u.1 = Namespace s) sent ∧
    stdout w' = stdout w ++ out.
Proof.
  revert w. induction items as [|s items IH]; intros w.
  { exists w, [], []. by rewrite !app_nil_r. }
  assert (Hmono : ∀ sent : list (string * Service),
    Forall (λ u, ∃ s0, s0 ∈ items ∧ IsAutoManaged s0 = true ∧
                       shrinks s0 u.2 ∧ u.1 = Namespace s0) sent →
    Forall (λ u, ∃ s0, s0 ∈ s :: items ∧ IsAutoManaged s0 = true ∧
                       shrinks s0 u.2 ∧ u.1 = Namespace s0) sent).
  { intros sent Hf. eapply Forall_impl; [exact Hf|].
    intros u (s0 & Hin & Hrest). exists s0. split; [by right | done]. }
  rewrite worker_items_cons. destruct (IsAutoManaged s) eqn:Hauto.
  2:{ destruct (IH w) as (w' & sent & out & -> & Hu & Hf & Ho).
      exists w', sent, out. auto. }
  destruct (IterateAnnotations_inv (shrinks s)
              (λ s1 ip r Hs1 Hr, shrinks_trans _ _ _ Hs1 (retract_shrinks ip r s1 Hr))
              s w (shrinks_refl s))
    as (s' & err & w1 & sent1 & out1 & -> & Hs' & Hu1 & Hf1 & Ho1).
  assert (Hf1' : Forall (λ u, ∃ s0, s0 ∈ s :: items ∧ IsAutoManaged s0 = true ∧
                       shrinks s0 u.2 ∧ u.1 = Namespace s0) sent1).
  { eapply Forall_impl; [exact Hf1|]. intros u [Hsh Hns]. exists s.
    split; [left|]. split; [done|]. split; [done|].
    rewrite Hns. by destruct Hsh as (_ & ? & _). }
  destruct err as [e|].
  - match goal with |- context [worker_items items ?w2] =>
      destruct (IH w2) as (w' & sent & out & -> & Hu & Hf & Ho) end.
    simpl in Hu, Ho. eexists w', (sent1 ++ sent), _. split; [reflexivity|].
    split; [by rewrite Hu, Hu1, app_assoc|].
    split; [apply Forall_app; auto|].
    rewrite Ho, Ho1. by rewrite <- !app_assoc.
  - destruct (IH w1) as (w' & sent & out & -> & Hu & Hf & Ho).
    eexists w', (sent1 ++ sent), _. split; [reflexivity|].
    split; [by rewrite Hu, Hu1, app_assoc|].
    split; [apply Forall_app; auto|].
    rewrite Ho, Ho1. by rewrite <- !app_assoc.
Qed.

Lemma shrinks_IsAutoManaged (s s' : Service) :
  shrinks s s' → annotation s' mgmtAnnotation = annotation s mgmtAnnotation.
Proof.
  intros (_ & _ & Ha & _). destruct (Ha mgmtAnnotation) as [|[_ [r Hr]]]; [done|].
  by apply mgmtAnnotation_not_key in Hr.
Qed.


Lemma GetServiceList_run (w : World E) :
  GetServiceList w
  = (Ret (servicesList (env w)).1.1,
     mkWorld (servicesList (env w)).2 (stdout w) (updates w)).
Proof.
  unfold GetServiceList, bind, List, lift_env, ret.
  by destruct (servicesList (env w)) as [[items err] e].
Qed.

Lemma worker_tick_run (w : World E) :
  worker_tick w
  = worker_items (servicesList (env w)).1.1
      (mkWorld (servicesList (env w)).2 (stdout w) (updates w)).
Proof. unfold worker_tick, bind. by rewrite GetServiceList_run. Qed.

Lemma backgroundWorker_total (n : nat) (w : World E) :
  ∃ w', backgroundWorker n w = (Ret tt, w').
Proof.
  revert w. induction n as [|n IH]; intros w; simpl; [by exists w|].
  unfold bind. rewrite worker_tick_run.
  destruct (worker_items_inv (servicesList (env w)).1.1
              (mkWorld (servicesList (env w)).2 (stdout w) (updates w)))
    as (w1 & _ & _ & -> & _). apply IH.
Qed.

(** After the expired rule is gone nothing else on the resource moves. *)
Lemma iterate_loop_all_live (now : string) (keys : list string) (s : Service)
    (w : World E) :
  (∀ k v, annotation s k = Some v → HasPrefix k annotationKeyPrefix = true →
          String.ltb v now = false) →
  ∃ w', iterate_loop now keys s w = (Ret (s, None), w') ∧
        updates w' = updates w ∧ env w' = env w.
Proof.
  intros Hlive. revert w. induction keys as [|a keys IH]; intros w.
  { by exists w. }
  destruct (annotation s a) as [v|] eqn:Ha.
  - destruct (HasPrefix a annotationKeyPrefix) eqn:Hp.
    + rewrite (iterate_loop_live now a v keys s w Ha Hp (Hlive a v Ha Hp)).
      match goal with |- context [iterate_loop now keys s ?w1] =>
        destruct (IH w1) as (w' & -> & Hu & He) end.
      by exists w'.
    + rewrite iterate_loop_skip by by right. apply IH.
  - rewrite iterate_loop_skip by by left. apply IH.
Qed.

Lemma iterate_loop_one_expired (now y dy : string) (r : list string)
    (keys : list string) (s : Service) (w : World E) :
  annotation s (annotationKey y) = Some dy → String.ltb dy now = true →
  (∀ k v, annotation s k = Some v → HasPrefix k annotationKeyPrefix = true →
          k ≠ annotationKey y → String.ltb v now = false) →
  reconcileSourceRanges (LoadBalancerSourceRanges s) y "remove" = Ok r →
  (servicesUpdate (Namespace s) (retract y r s) (env w)).1 = None →
  annotationKey y ∈ keys →
  ∃ w', iterate_loop now keys s w = (Ret (retract y r s, None), w') ∧
        updates w' = updates w ++ [(Namespace s, retract y r s)].
Proof.
  intros Hy Hexp Hlive Hr. revert w.
  induction keys as [|a keys IH]; intros w Hup Hin; [by apply elem_of_nil in Hin|].
  destruct (decide (a = annotationKey y)) as [->|Hne].
  - rewrite (iterate_loop_expired now _ dy keys s w Hy
               (annotationKey_HasPrefix y) Hexp).
    rewrite TrimPrefix_annotationKey. unfold bind at 1. unfold Printf at 1.
    unfold bind at 1. rewrite (RemoveIpFromService_present y s _ r Hr).
    simpl. destruct (servicesUpdate (Namespace s) (retract y r s) (env w))
      as [err e1]. simpl in Hup. subst err. cbn [fst snd].
    match goal with |- context [iterate_loop now keys _ ?w1] =>
      destruct (iterate_loop_all_live now keys (retract y r s) w1)
        as (w' & -> & Hu & _) end.
    + intros k v. rewrite annotation_retract.
      destruct (decide _) as [|Hk]; [done|]. intros Hk1 Hk2. by eapply Hlive.
    + by exists w'.
  - apply elem_of_cons in Hin as [Hin|Hin]; [done|].
    destruct (annotation s a) as [v|] eqn:Ha.
    + destruct (HasPrefix a annotationKeyPrefix) eqn:Hp.
      * rewrite (iterate_loop_live now a v keys s w Ha Hp (Hlive a v Ha Hp Hne)).
        match goal with |- context [iterate_loop now keys s ?w1] =>
          destruct (IH w1 Hup Hin) as (w' & -> & Hu) end.
        by exists w'.
      * rewrite iterate_loop_skip by by right. by apply IH.
    + rewrite iterate_loop_skip by by left. by apply IH.
Qed.

Lemma range_keys_complete (s : Service) (e : E) (k v : string) :
  annotation s k = Some v → k ∈ (range_keys s e).1.
Proof.
  unfold annotation, range_keys. destruct (Annotations s) as [m|]; [|done].
  simpl. intros Hk. rewrite (mapRange_perm m e).
  apply list_elem_of_fmap. exists (k, v). split; [done|].
  by apply elem_of_map_to_list.
Qed.

Lemma UpdateServiceSpec_Ok (iprange ns d : string) (s s' : Service)
    (w w' : World E) :
  UpdateServiceSpec iprange ns s w = (Ret (s', Ok d), w') →
  ∃ m, Annotations s = Some m ∧ (iprange ∉ LoadBalancerSourceRanges s) ∧
       s' = mkService (Name s) (Namespace s)
              (Some (<[annotationKey iprange := d]> m))
              (LoadBalancerSourceRanges s ++ [iprange]) ∧
       updates w' = updates w ++ [(ns, s')].
Proof.
  unfold UpdateServiceSpec.
  destruct (decide (iprange ∈ LoadBalancerSourceRanges s)) as [Hin|Hout].
  { rewrite (reconcile_add_present _ _ Hin). unfold ret. by intros [= _ ?]. }
  rewrite (reconcile_add_absent _ _ Hout).
  unfold bind at 1. unfold updateServiceAnnotation, bind at 1.
  unfold Now, lift_env. destruct (timeNow (env w)) as [t e1].
  unfold applySourceRangesToSpec. simpl.
  destruct (Annotations s) as [m|]; [|by intros [=]].
  unfold ret at 1. unfold bind, Update. simpl.
  destruct (servicesUpdate _ _ e1) as [[e|] e2]; unfold ret;
    intros [= <- <- <-]. exists m. done.
Qed.

(** C4. The grant and the retraction keep every access-rule annotation
    backed by a member of the allow-list: from a resource where each key
    prefix.range has its range in the allow-list, a successful
    [UpdateServiceSpec] and a successful [RemoveIpFromService] leave, and
    send to the cluster, a resource with the same property; so does every
    object a sweep of the resource sends. *)
Theorem operations_keep_rules_listed (s : Service) (w : World E) :
  consistent s →
  (∀ iprange ns d s' w',
     UpdateServiceSpec iprange ns s w = (Ret (s', Ok d), w') →
     consistent s' ∧ updates w' = updates w ++ [(ns, s')]) ∧
  (∀ iprange s' w',
     RemoveIpFromService iprange s w = (Ret (s', None), w') →
     consistent s' ∧ updates w' = updates w ++ [(Namespace s, s')]) ∧
  (∃ s' err w' sent,
     IterateAnnotations s w = (Ret (s', err), w') ∧ consistent s' ∧
     updates w' = updates w ++ sent ∧ Forall (λ u, consistent u.2) sent).
Proof.
  intros Hc. split; [|split].
  - intros iprange ns d s' w' Hrun.
    apply UpdateServiceSpec_Ok in Hrun as (m & Hm & Hout & -> & Hu).
    split; [|done]. intros r v. unfold annotation. simpl.
    destruct (decide (r = iprange)) as [->|Hne].
    + intros _. apply elem_of_app. right. left.
    + rewrite lookup_insert_ne by (intros Hk; by apply annotationKey_inj in Hk).
      intros Hr. apply elem_of_app. left. apply (Hc r v).
      unfold annotation. by rewrite Hm.
  - intros iprange s' w'.
    destruct (reconcileSourceRanges (LoadBalancerSourceRanges s) iprange "remove")
      as [r|e] eqn:Hr.
    + rewrite (RemoveIpFromService_present iprange s w r Hr).
      intros [= <- _ <-]. split; [by apply retract_consistent | done].
    + rewrite (RemoveIpFromService_absent iprange s w e Hr). by intros [=].
  - destruct (IterateAnnotations_inv consistent
                (λ s1 ip r Hs1 Hr, retract_consistent ip r s1 Hr Hs1) s w Hc)
      as (s' & err & w' & sent & out & Hrun & Hs' & Hu & Hf & _).
    exists s', err, w', sent. repeat split; try done.
    eapply Forall_impl; [exact Hf|]. by intros u [? _].
Qed.

(** C10. The marker key does not begin with the access-rule prefix, so the
    scan never selects it.  A sweep of a resource returns, leaves the
    marker entry of the resource as it was, and every object it sends to
    the cluster carries the marker entry of the resource; every object a
    whole tick sends is opted in. *)
Theorem sweep_keeps_marker :
  HasPrefix mgmtAnnotation annotationKeyPrefix = false ∧
  (∀ (s : Service) (w : World E),
     ∃ s' err w' sent,
       IterateAnnotations s w = (Ret (s', err), w') ∧
       annotation s' mgmtAnnotation = annotation s mgmtAnnotation ∧
       IsAutoManaged s' = IsAutoManaged s ∧
       updates w' = updates w ++ sent ∧
       Forall (λ u, annotation u.2 mgmtAnnotation = annotation s mgmtAnnotation)
              sent) ∧
  (∀ w : World E,
     ∃ w' sent,
       worker_tick w = (Ret tt, w') ∧ updates w' = updates w ++ sent ∧
       Forall (λ u, IsAutoManaged u.2 = true) sent).
Proof.
  split; [exact mgmtAnnotation_no_prefix|]. split.
  - intros s w.
    destruct (IterateAnnotations_inv (shrinks s)
                (λ s1 ip r Hs1 Hr, shrinks_trans _ _ _ Hs1 (retract_shrinks ip r s1 Hr))
                s w (shrinks_refl s))
      as (s' & err & w' & sent & out & Hrun & Hs' & Hu & Hf & _).
    exists s', err, w', sent. split; [done|].
    pose proof (shrinks_IsAutoManaged s s' Hs') as Hm.
    split; [done|]. split; [unfold IsAutoManaged; by rewrite Hm|].
    split; [done|]. eapply Forall_impl; [exact Hf|].
    intros u [Hsh _]. by apply shrinks_IsAutoManaged.
  - intros w. rewrite worker_tick_run.
    destruct (worker_items_inv (servicesList (env w)).1.1
                (mkWorld (servicesList (env w)).2 (stdout w) (updates w)))
      as (w' & sent & out & Hrun & Hu & Hf & _).
    exists w', sent. split; [done|]. split; [done|].
    eapply Forall_impl; [exact Hf|].
    intros u (s & _ & Hauto & Hsh & _). unfold IsAutoManaged in *.
    by rewrite (shrinks_IsAutoManaged s u.2 Hsh).
Qed.

(** C3, amended. When the retraction of an expired rule fails, the scan
    of that resource stops there: [IterateAnnotations] returns the error
    and the keys not yet visited are not looked at in this tick.  The
    worker prints the error and goes on with the remaining resources; the
    loop over the resources always runs to its end. *)
Theorem sweep_failure_stops_resource_only (now a v : string)
    (keys : list string) (s s' : Service) (e : error) (w w' : World E) :
  annotation s a = Some v → HasPrefix a annotationKeyPrefix = true →
  String.ltb v now = true →
  RemoveIpFromService (TrimPrefix a (annotationKeyPrefix +:+ ".")) s
    (mkWorld (env w)
       (stdout w ++ ["Time to remove this rule: " +:+ a +:+ newline])
       (updates w))
  = (Ret (s', Some e), w') →
  iterate_loop now (a :: keys) s w = (Ret (s', Some e), w') ∧
  (∀ (items : list Service) (s0 s1 : Service) (w0 w1 : World E),
     IsAutoManaged s0 = true →
     IterateAnnotations s0 w0 = (Ret (s1, Some e), w1) →
     worker_items (s0 :: items) w0
     = worker_items items
         (mkWorld (env w1) (stdout w1 ++ [Error e +:+ newline]) (updates w1))) ∧
  (∀ (items : list Service) (w0 : World E),
     ∃ w1, worker_items items w0 = (Ret tt, w1)).
Proof.
  intros Ha Hp Hv Hfail. split; [|split].
  - rewrite (iterate_loop_expired now a v keys s w Ha Hp Hv).
    unfold bind at 1. unfold Printf at 1. unfold bind at 1.
    by rewrite Hfail.
  - intros items s0 s1 w0 w1 Hauto Hrun.
    by rewrite worker_items_cons, Hauto, Hrun.
  - intros items w0.
    destruct (worker_items_inv items w0) as (w1 & _ & _ & Hrun & _).
    by exists w1.
Qed.

(** C9, amended. [GetServiceList] drops the error of the listing: nothing
    is printed, and the tick goes over the items of the list object the
    client returned with the error.  When that list is empty (as the
    client leaves it on a failed request) the tick sends nothing, prints
    nothing, and the next tick follows; the worker never stops. *)
Theorem listing_failure_is_silent (w : World E) (items : list Service)
    (e : error) (env' : E) :
  servicesList (env w) = ((items, Some e), env') →
  GetServiceList w = (Ret items, mkWorld env' (stdout w) (updates w)) ∧
  worker_tick w = worker_items items (mkWorld env' (stdout w) (updates w)) ∧
  (items = [] →
   worker_tick w = (Ret tt, mkWorld env' (stdout w) (updates w)) ∧
   ∀ n, backgroundWorker (S n) w
        = backgroundWorker n (mkWorld env' (stdout w) (updates w))) ∧
  (∀ n, ∃ w', backgroundWorker n w = (Ret tt, w')).
Proof.
  intros Hl. split; [|split; [|split]].
  - by rewrite GetServiceList_run, Hl.
  - by rewrite worker_tick_run, Hl.
  - intros ->. assert (Ht : worker_tick w
                       = (Ret tt, mkWorld env' (stdout w) (updates w))).
    { by rewrite worker_tick_run, Hl. }
    split; [done|]. intros n. simpl. unfold bind. by rewrite Ht.
  - intros n. apply backgroundWorker_total.
Qed.


End Sweep.

Lemma demo_service_consistent : consistent demo_service.
Proof.
  intros r v. unfold annotation, demo_service. simpl.
  rewrite lookup_insert_Some, lookup_empty.
  intros [[Hk _]|[_ [=]]]. by apply mgmtAnnotation_not_key in Hk.
Qed.

Lemma operations_keep_rules_listed_witness :
  consistent
    (mkService "ingress-nginx" "default"
       (Some (<[annotationKey "10.0.0.1/32" := "2018-01-01 23:59:58"]>
               (<[mgmtAnnotation := "true"]> ∅)))
       ["192.168.0.0/16"; "10.0.0.1/32"]).
Proof.
  refine (proj1 (proj1 (operations_keep_rules_listed (E := Fake)
                          demo_service demo_world demo_service_consistent)
                   "10.0.0.1/32" "default" "2018-01-01 23:59:58" _ _ _)).
  vm_compute. reflexivity.
Defined.

(** C3 as stated fails: the first rule visited cannot be retracted (its
    range is not in the allow-list), the scan returns, and the second rule,
    expired too and retractable on its own, stays; nothing is sent. *)
Lemma sweep_abandons_rules_counterexample :
  (IterateAnnotations two_expired two_expired_world).1
  = Ret (two_expired, Some ErrNotFound) ∧
  updates (IterateAnnotations two_expired two_expired_world).2 = [] ∧
  annotation two_expired (annotationKey "10.0.0.2/32") = Some past ∧
  String.ltb past (Format demo_now) = true ∧
  (RemoveIpFromService "10.0.0.2/32" two_expired two_expired_world).1
  = Ret (retract "10.0.0.2/32" [] two_expired, None).
Proof. repeat split; vm_compute; reflexivity. Qed.

Lemma sweep_failure_stops_resource_only_witness :
  iterate_loop (Format demo_now)
    [annotationKey "10.0.0.1/32"; annotationKey "10.0.0.2/32"]
    two_expired two_expired_world
  = (Ret (two_expired, Some ErrNotFound),
     mkWorld (env two_expired_world)
       ["Time to remove this rule: " +:+ annotationKey "10.0.0.1/32" +:+ newline]
       []).
Proof.
  refine (proj1 (sweep_failure_stops_resource_only (E := Fake) (Format demo_now)
                   (annotationKey "10.0.0.1/32") past
                   [annotationKey "10.0.0.2/32"] two_expired two_expired
                   ErrNotFound two_expired_world _ _ _ _ _));
    vm_compute; reflexivity.
Defined.

(** C9 as stated fails: the listing fails and nothing is printed. *)
Lemma listing_failure_not_logged_counterexample :
  servicesList (env failing_list_world)
  = (([], Some (ErrGateway "connection refused")), env failing_list_world) ∧
  worker_tick failing_list_world = (Ret tt, failing_list_world) ∧
  stdout (worker_tick failing_list_world).2 = [].
Proof. repeat split; vm_compute; reflexivity. Qed.

Lemma listing_failure_is_silent_witness :
  worker_tick failing_list_world = (Ret tt, failing_list_world) ∧
  ∀ n, backgroundWorker (S n) failing_list_world
       = backgroundWorker n failing_list_world.
Proof.
  refine (proj1 (proj2 (proj2 (listing_failure_is_silent (E := Fake)
            failing_list_world [] (ErrGateway "connection refused")
            (env failing_list_world) _))) eq_refl).
  reflexivity.
Defined.


(** * Further properties of the reconciler *)

(** X1. *)
(** X1. [reconcileSourceRanges] answers "Unsupported operation" exactly for
    the operations other than "add" and "remove" (the comparison is exact,
    so "Add" is unsupported), whatever the sequence and the range; it
    returns a sequence only for those two. *)
Theorem reconcile_unsupported_op (c : list string) (n op : string) :
  (reconcileSourceRanges c n op = Err (ErrUnsupportedOperation op)
   ↔ op ≠ "add" ∧ op ≠ "remove") ∧
  (∀ r, reconcileSourceRanges c n op = Ok r → op = "add" ∨ op = "remove").
Proof.
  unfold reconcileSourceRanges.
  destruct (String.eqb_spec op "add") as [->|Hadd].
  { split; [|by left]. split; [|by intros [? _]].
    destruct (add_scan c n); discriminate. }
  destruct (String.eqb_spec op "remove") as [->|Hrem].
  { split; [|by right]. split; [|by intros [_ ?]].
    destruct (remove_scan c n 0 c); discriminate. }
  split; [done | discriminate].
Qed.

Lemma reconcile_add_Ok (S S' : list string) (a : string) :
  reconcileSourceRanges S a "add" = Ok S' → (a ∉ S) ∧ S' = S ++ [a].
Proof.
  destruct (decide (a ∈ S)) as [Hin|Hout].
  - by rewrite (reconcile_add_present S a Hin).
  - rewrite (reconcile_add_absent S a Hout). by intros [= <-].
Qed.

(** X2. A successful Add makes the sequence one longer, leaves every entry
    at its index, puts the range in the new last slot, and keeps a
    duplicate-free sequence duplicate-free. *)
Theorem add_keeps_nodup (S S' : list string) (a : string) :
  reconcileSourceRanges S a "add" = Ok S' →
  length S' = Datatypes.S (length S) ∧
  (∀ i x, S !! i = Some x → S' !! i = Some x) ∧
  S' !! length S = Some a ∧
  (NoDup S → NoDup S').
Proof.
  intros [Hout ->]%reconcile_add_Ok. split; [|split; [|split]].
  - rewrite length_app. simpl. lia.
  - intros i x Hi. by apply lookup_app_l_Some.
  - by rewrite list_lookup_middle.
  - intros Hnd. apply NoDup_app. split; [done|]. split.
    + intros x Hx [->|[]%elem_of_nil]%elem_of_cons. done.
    + apply NoDup_singleton.
Qed.

(** X3. A successful Remove was of a range in the sequence; the result is
    one shorter; every other entry is in the result exactly when it was in
    the sequence; from a duplicate-free sequence the result is
    duplicate-free and without the range. *)
Theorem remove_takes_one_out (S S' : list string) (a : string) :
  reconcileSourceRanges S a "remove" = Ok S' →
  a ∈ S ∧ length S = Datatypes.S (length S') ∧
  (∀ x, x ≠ a → (x ∈ S' ↔ x ∈ S)) ∧
  (NoDup S → NoDup S' ∧ a ∉ S').
Proof.
  intros Hr. pose proof (reconcile_remove_Ok S S' a Hr) as (Hp & Hsub & Hkeep).
  split; [rewrite <- Hp; left|]. split; [by rewrite <- Hp|]. split.
  - intros x Hne. split; [apply Hsub | intros Hx; by apply Hkeep].
  - intros Hnd. rewrite <- Hp in Hnd. apply NoDup_cons in Hnd as [? ?]. done.
Qed.

(** X4. After a successful Add of a range, adding it again is refused as a
    duplicate, and for any other range Add answers as it did before (on the
    longer sequence). *)
Theorem add_twice_is_refused (S S' : list string) (a : string) :
  reconcileSourceRanges S a "add" = Ok S' →
  reconcileSourceRanges S' a "add" = Err (ErrAlreadyWhitelisted a) ∧
  (∀ b, b ≠ a →
     reconcileSourceRanges S' b "add"
     = match reconcileSourceRanges S b "add" with
       | Ok Sb => Ok (S' ++ [b])
       | Err e => Err e
       end).
Proof.
  intros [Hout ->]%reconcile_add_Ok. split.
  - apply reconcile_add_present, elem_of_app. right. left.
  - intros b Hne. destruct (decide (b ∈ S)) as [Hin|Hnin].
    + rewrite (reconcile_add_present S b Hin).
      apply reconcile_add_present, elem_of_app. by left.
    + rewrite (reconcile_add_absent S b Hnin).
      apply reconcile_add_absent. rewrite elem_of_app, list_elem_of_singleton.
      tauto.
Qed.

(** X5. After a successful Remove from a duplicate-free sequence, a second
    Remove of the range fails with not found, and adding the range back
    succeeds and gives a permutation of the original sequence. *)
Theorem remove_then_again (S S' : list string) (a : string) :
  NoDup S →
  reconcileSourceRanges S a "remove" = Ok S' →
  reconcileSourceRanges S' a "remove" = Err ErrNotFound ∧
  reconcileSourceRanges S' a "add" = Ok (S' ++ [a]) ∧
  S' ++ [a] ≡ₚ S.
Proof.
  intros Hnd Hr. pose proof (reconcile_remove_Ok S S' a Hr) as (Hp & _ & _).
  assert (Hout : a ∉ S').
  { rewrite <- Hp in Hnd. by apply NoDup_cons in Hnd as [? _]. }
  split; [by apply reconcile_remove_absent|].
  split; [by apply reconcile_add_absent|].
  rewrite <- Hp. by rewrite <- Permutation_cons_append.
Qed.

(** * Further properties of the codec *)

(** X6. The key of a rule: it has the access-rule prefix, trimming
    "prefix." from it gives the range back, two ranges have the same key
    only when they are equal, and no key is the management marker. *)
Theorem rule_key_round_trip (r r' : string) :
  HasPrefix (annotationKey r) annotationKeyPrefix = true ∧
  TrimPrefix (annotationKey r) (annotationKeyPrefix +:+ ".") = r ∧
  (annotationKey r = annotationKey r' ↔ r = r') ∧
  annotationKey r ≠ mgmtAnnotation.
Proof.
  split; [apply annotationKey_HasPrefix|].
  split; [apply TrimPrefix_annotationKey|]. split.
  - split; [apply annotationKey_inj | by intros ->].
  - intros Heq. by apply (mgmtAnnotation_not_key r).
Qed.

Lemma annotation_removeServiceAnnotation (r : string) (s : Service) (k : string) :
  annotation (removeServiceAnnotation r s) k
  = if decide (k = annotationKey r) then None else annotation s k.
Proof. apply (annotation_retract r (LoadBalancerSourceRanges s) s k). Qed.

Lemma removeServiceAnnotation_absent (r : string) (s : Service) :
  annotation s (annotationKey r) = None → removeServiceAnnotation r s = s.
Proof.
  destruct s as [nm ns [m|] l]; unfold annotation, removeServiceAnnotation,
    set_annotations; simpl; [|done].
  intros Hk. by rewrite delete_id.
Qed.

(** X7. [removeServiceAnnotation] leaves a resource without the key (or
    with a nil map) as it is, is idempotent, deletes only its key and does
    not touch the allow-list. *)
Theorem erase_is_idempotent (r : string) (s : Service) :
  (annotation s (annotationKey r) = None → removeServiceAnnotation r s = s) ∧
  removeServiceAnnotation r (removeServiceAnnotation r s)
  = removeServiceAnnotation r s ∧
  (∀ k, annotation (removeServiceAnnotation r s) k
        = if decide (k = annotationKey r) then None else annotation s k) ∧
  LoadBalancerSourceRanges (removeServiceAnnotation r s)
  = LoadBalancerSourceRanges s.
Proof.
  split; [apply removeServiceAnnotation_absent|]. split.
  - apply removeServiceAnnotation_absent.
    rewrite annotation_removeServiceAnnotation. by rewrite decide_True.
  - split; [apply annotation_removeServiceAnnotation | done].
Qed.

Section More.
Context {E : Type} `{Cluster E}.

Lemma updateServiceAnnotation_run (r : string) (s : Service) (w : World E) :
  updateServiceAnnotation r s w
  = match Annotations s with
    | Some m =>
        (Ret (Format (AddDate (timeNow (env w)).1 0 0 2),
              set_annotations
                (Some (<[annotationKey r := Format (AddDate (timeNow (env w)).1 0 0 2)]> m)) s),
         mkWorld (timeNow (env w)).2 (stdout w) (updates w))
    | None => (Panic, mkWorld (timeNow (env w)).2 (stdout w) (updates w))
    end.
Proof.
  unfold updateServiceAnnotation, bind, Now, lift_env.
  destruct (timeNow (env w)) as [t e]. simpl.
  by destruct (Annotations s).
Qed.

(** X8. After [updateServiceAnnotation] the key of the range holds the
    returned deadline (a previous value is overwritten) and every other
    entry is as before; erasing the range afterwards gives what erasing it
    before would have given, and the resource itself when the key was not
    there. *)
Theorem stamp_then_erase (r d : string) (s s' : Service) (w w' : World E) :
  updateServiceAnnotation r s w = (Ret (d, s'), w') →
  annotation s' (annotationKey r) = Some d ∧
  (∀ k, k ≠ annotationKey r → annotation s' k = annotation s k) ∧
  removeServiceAnnotation r s' = removeServiceAnnotation r s ∧
  (annotation s (annotationKey r) = None → removeServiceAnnotation r s' = s).
Proof.
  rewrite updateServiceAnnotation_run.
  destruct s as [nm ns [m|] l]; simpl; [|done].
  intros [= <- <- <-]. unfold annotation, removeServiceAnnotation, set_annotations.
  simpl. split; [apply lookup_insert_eq|]. split.
  - intros k Hk. by apply lookup_insert_ne.
  - rewrite delete_insert_eq. split; [done|].
    intros Hk. by rewrite delete_id.
Qed.


Lemma UpdateServiceSpec_run (r ns : string) (s : Service) (w : World E) :
  UpdateServiceSpec r ns s w
  = if bool_decide (r ∈ LoadBalancerSourceRanges s) then
      (Ret (s, Err (ErrAlreadyWhitelisted r)), w)
    else
      let t := (timeNow (env w)).1 in
      let e1 := (timeNow (env w)).2 in
      match Annotations s with
      | None => (Panic, mkWorld e1 (stdout w) (updates w))
      | Some m =>
          let s' := granted r t m s in
          (Ret (s', match (servicesUpdate ns s' e1).1 with
                    | Some e => Err e
                    | None => Ok (Format (AddDate t 0 0 2))
                    end),
           mkWorld (servicesUpdate ns s' e1).2 (stdout w)
                   (updates w ++ [(ns, s')]))
      end.
Proof.
  unfold UpdateServiceSpec.
  destruct (decide (r ∈ LoadBalancerSourceRanges s)) as [Hin|Hout].
  { rewrite (reconcile_add_present _ _ Hin), bool_decide_eq_true_2 by done.
    reflexivity. }
  rewrite (reconcile_add_absent _ _ Hout), bool_decide_eq_false_2 by done.
  unfold bind at 1. rewrite updateServiceAnnotation_run.
  unfold applySourceRangesToSpec, set_ranges, set_annotations. simpl.
  destruct (Annotations s) as [m|]; [|reflexivity].
  unfold bind, Update, granted. simpl.
  by destruct (servicesUpdate _ _ _) as [[e|] e2].
Qed.

(** X9. [UpdateServiceSpec] for a range already in the allow-list returns
    the duplicate error at once: the resource is unchanged, the clock is
    not read, nothing is sent and nothing is printed. *)
Theorem grant_duplicate_has_no_effect (r ns : string) (s : Service)
    (w : World E) :
  r ∈ LoadBalancerSourceRanges s →
  UpdateServiceSpec r ns s w = (Ret (s, Err (ErrAlreadyWhitelisted r)), w).
Proof.
  intros Hin. rewrite UpdateServiceSpec_run. by rewrite bool_decide_eq_true_2.
Qed.

(** X10. [UpdateServiceSpec] for a range not in the allow-list and a
    resource with a map: the range is appended, the deadline is stored
    under its key, and this object is sent in exactly one update; the call
    returns the deadline when the cluster accepts the update and the
    error of the cluster otherwise (the object in memory is changed in
    both cases). *)
Theorem grant_of_new_range (r ns : string) (s : Service)
    (m : gmap string string) (w : World E) :
  r ∉ LoadBalancerSourceRanges s → Annotations s = Some m →
  let t := (timeNow (env w)).1 in
  let s' := granted r t m s in
  let answer := servicesUpdate ns s' (timeNow (env w)).2 in
  UpdateServiceSpec r ns s w
  = (Ret (s', match answer.1 with
              | Some e => Err e
              | None => Ok (Format (AddDate t 0 0 2))
              end),
     mkWorld answer.2 (stdout w) (updates w ++ [(ns, s')])) ∧
  annotation s' (annotationKey r) = Some (Format (AddDate t 0 0 2)) ∧
  r ∈ LoadBalancerSourceRanges s'.
Proof.
  intros Hout Hm t s' answer. rewrite UpdateServiceSpec_run.
  rewrite bool_decide_eq_false_2 by done. rewrite Hm. split; [done|]. split.
  - unfold annotation, s', granted. simpl. apply lookup_insert_eq.
  - unfold s', granted. simpl. apply elem_of_app. right. left.
Qed.

(** X11. [UpdateServiceSpec] panics exactly when the annotation map is nil
    and the range is new; then nothing was sent.  It never panics on a
    resource that is opted in. *)
Theorem grant_panics_only_on_nil_map (r ns : string) (s : Service)
    (w : World E) :
  ((UpdateServiceSpec r ns s w).1 = Panic
   ↔ Annotations s = None ∧ r ∉ LoadBalancerSourceRanges s) ∧
  (IsAutoManaged s = true → (UpdateServiceSpec r ns s w).1 ≠ Panic) ∧
  ((UpdateServiceSpec r ns s w).1 = Panic →
   updates (UpdateServiceSpec r ns s w).2 = updates w).
Proof.
  rewrite UpdateServiceSpec_run.
  destruct (decide (r ∈ LoadBalancerSourceRanges s)) as [Hin|Hout].
  { rewrite bool_decide_eq_true_2 by done. simpl.
    split; [|done]. split; [done | by intros [_ ?]]. }
  rewrite bool_decide_eq_false_2 by done. cbv zeta.
  unfold IsAutoManaged, annotation.
  destruct (Annotations s) as [m|]; simpl.
  - split; [|done]. split; [done | by intros [? _]].
  - done.
Qed.

(** X12. On the resource a successful grant leaves, granting the same range
    again is refused as a duplicate, with no effect. *)
Theorem grant_again_is_refused (r ns d : string) (s s' : Service)
    (w w' : World E) :
  UpdateServiceSpec r ns s w = (Ret (s', Ok d), w') →
  ∀ ns2 (w2 : World E),
    UpdateServiceSpec r ns2 s' w2
    = (Ret (s', Err (ErrAlreadyWhitelisted r)), w2).
Proof.
  intros Hrun ns2 w2.
  apply UpdateServiceSpec_Ok in Hrun as (m & _ & _ & -> & _).
  rewrite UpdateServiceSpec_run, bool_decide_eq_true_2; [done|].
  simpl. apply elem_of_app. right. left.
Qed.

Lemma RemoveIpFromService_run (r : string) (s : Service) (w : World E) :
  RemoveIpFromService r s w
  = match reconcileSourceRanges (LoadBalancerSourceRanges s) r "remove" with
    | Err e => (Ret (s, Some e), w)
    | Ok l =>
        (Ret (retract r l s, (servicesUpdate (Namespace s) (retract r l s) (env w)).1),
         mkWorld (servicesUpdate (Namespace s) (retract r l s) (env w)).2
                 (stdout w) (updates w ++ [(Namespace s, retract r l s)]))
    end.
Proof.
  destruct (reconcileSourceRanges _ r "remove") as [l|e] eqn:Hr.
  - by apply RemoveIpFromService_present.
  - by apply RemoveIpFromService_absent.
Qed.

(** X13. [RemoveIpFromService] for a range not in the allow-list returns
    not found with no effect at all (an annotation of the range stays).
    For a range in the allow-list it builds the resource without one
    occurrence of the range and without the key of the range, sends it in
    one update and returns the answer of the cluster. *)
Theorem retract_outcomes (r : string) (s : Service) (w : World E) :
  (r ∉ LoadBalancerSourceRanges s →
   RemoveIpFromService r s w = (Ret (s, Some ErrNotFound), w)) ∧
  (r ∈ LoadBalancerSourceRanges s →
   ∃ l, (r :: l) ≡ₚ LoadBalancerSourceRanges s ∧
     let s' := mkService (Name s) (Namespace s)
                 (delete (annotationKey r) <$> Annotations s) l in
     let answer := servicesUpdate (Namespace s) s' (env w) in
     RemoveIpFromService r s w
     = (Ret (s', answer.1),
        mkWorld answer.2 (stdout w) (updates w ++ [(Namespace s, s')]))).
Proof.
  rewrite RemoveIpFromService_run. split.
  - intros Hout. by rewrite (reconcile_remove_absent _ _ Hout).
  - intros Hin.
    destruct (reconcile_remove_cases (LoadBalancerSourceRanges s) r)
      as [[Hout _]|(pre & post & Hs & Hpre & ->)]; [done|].
    exists (swap_out pre post). split; [|done].
    rewrite Hs. apply swap_out_perm.
Qed.

(** X14. Retracting a range right after its successful grant gives back the
    name, the namespace and every other annotation of the original
    resource, the whole map when the key was not there before, and the
    original allow-list rotated left by one. *)
Theorem grant_then_retract (r ns d : string) (s s' : Service) (w w' : World E) :
  UpdateServiceSpec r ns s w = (Ret (s', Ok d), w') →
  ∀ w2 : World E, ∃ s'' err w2',
    RemoveIpFromService r s' w2 = (Ret (s'', err), w2') ∧
    Name s'' = Name s ∧ Namespace s'' = Namespace s ∧
    LoadBalancerSourceRanges s''
    = drop 1 (LoadBalancerSourceRanges s) ++ take 1 (LoadBalancerSourceRanges s) ∧
    (∀ k, k ≠ annotationKey r → annotation s'' k = annotation s k) ∧
    annotation s'' (annotationKey r) = None ∧
    (annotation s (annotationKey r) = None → Annotations s'' = Annotations s) ∧
    updates w2' = updates w2 ++ [(Namespace s, s'')].
Proof.
  intros Hrun w2.
  apply UpdateServiceSpec_Ok in Hrun as (m & Hm & Hout & -> & _).
  rewrite RemoveIpFromService_run. simpl.
  rewrite (reconcile_remove_first_match (LoadBalancerSourceRanges s) [] r Hout).
  eexists _, _, _. split; [reflexivity|].
  split; [done|]. split; [done|]. split.
  { simpl. destruct (LoadBalancerSourceRanges s) as [|x l]; simpl; [done|].
    by rewrite drop_0, take_0. }
  split.
  { intros k Hk. rewrite annotation_retract, decide_False by done.
    unfold annotation. simpl. rewrite Hm. simpl. by apply lookup_insert_ne. }
  split; [by rewrite annotation_retract, decide_True|].
  split; [|done]. unfold annotation. rewrite Hm. simpl. intros Hk.
  rewrite delete_insert_eq. by rewrite delete_id.
Qed.



(** X16. A granted range and the sweep: when the other access-rule
    annotations are live, a sweep up to two days after the grant leaves the
    granted resource alone and sends nothing; a later sweep, if the cluster
    accepts the update, sends one update and leaves the original resource
    without the key of the range and with its allow-list rotated. *)
Theorem grant_then_sweep (r ns d : string) (s s' : Service) (w w' w2 : World E) :
  let t0 := (timeNow (env w)).1 in
  let t1 := (timeNow (env w2)).1 in
  let back := mkService (Name s) (Namespace s)
                (delete (annotationKey r) <$> Annotations s)
                (drop 1 (LoadBalancerSourceRanges s)
                 ++ take 1 (LoadBalancerSourceRanges s)) in
  UpdateServiceSpec r ns s w = (Ret (s', Ok d), w') →
  valid_time t0 → (0 ≤ year t0 ≤ 9998)%Z → valid_time t1 → in_layout_range t1 →
  (∀ k v, annotation s k = Some v → HasPrefix k annotationKeyPrefix = true →
          k ≠ annotationKey r → String.ltb v (sweep_now w2) = false) →
  ((abs_seconds t1 ≤ abs_seconds t0 + 2 * 86400)%Z →
   ∃ w2', IterateAnnotations s' w2 = (Ret (s', None), w2') ∧
          updates w2' = updates w2) ∧
  ((abs_seconds t0 + 2 * 86400 < abs_seconds t1)%Z →
   (servicesUpdate (Namespace s) back (env (sweep_start s' w2))).1 = None →
   ∃ w2', IterateAnnotations s' w2 = (Ret (back, None), w2') ∧
          updates w2' = updates w2 ++ [(Namespace s, back)]).
Proof.
  intros t0 t1 back Hrun V0 Y0 V1 R1 Hothers.
  assert (Hlife : String.ltb (Format (AddDate t0 0 0 2)) (Format t1) = true
                  ↔ (abs_seconds t0 + 2 * 86400 < abs_seconds t1)%Z).
  { destruct (AddDate_two_days_seconds t0 V0) as (V' & Hs & Hy).
    rewrite Format_ltb; try done; [|unfold in_layout_range; lia].
    rewrite Hs. apply Z.ltb_lt. }
  rewrite UpdateServiceSpec_run in Hrun.
  destruct (bool_decide (r ∈ LoadBalancerSourceRanges s)) eqn:Hdec; [done|].
  apply bool_decide_eq_false in Hdec. cbv zeta in Hrun.
  destruct (Annotations s) as [m|] eqn:Hm; [|done].
  fold t0 in Hrun.
  destruct (servicesUpdate ns (granted r t0 m s) (timeNow (env w)).2).1; [done|].
  injection Hrun as <- <- _.
  assert (Hkey : annotation (granted r t0 m s) (annotationKey r)
                 = Some (Format (AddDate t0 0 0 2))).
  { unfold annotation, granted. simpl. apply lookup_insert_eq. }
  assert (Hrest : ∀ k v, annotation (granted r t0 m s) k = Some v →
            HasPrefix k annotationKeyPrefix = true → k ≠ annotationKey r →
            String.ltb v (sweep_now w2) = false).
  { intros k v Hk Hp Hne. apply (Hothers k v); [|done|done].
    unfold annotation in *. rewrite Hm. simpl in *.
    by rewrite lookup_insert_ne in Hk. }
  split.
  - intros Hearly. rewrite IterateAnnotations_run.
    destruct (iterate_loop_all_live (sweep_now w2)
                (range_keys (granted r t0 m s) (timeNow (env w2)).2).1
                (granted r t0 m s) (sweep_start (granted r t0 m s) w2))
      as (w2' & -> & Hu & _).
    + intros k v Hk Hp. destruct (decide (k = annotationKey r)) as [->|Hne];
        [|by eapply Hrest].
      rewrite Hkey in Hk. injection Hk as <-.
      apply not_true_is_false. unfold sweep_now. fold t1. rewrite Hlife. lia.
    + eexists. split; [reflexivity|]. done.
  - intros Hlate Hup. rewrite IterateAnnotations_run.
    assert (Hr : reconcileSourceRanges
                   (LoadBalancerSourceRanges (granted r t0 m s)) r "remove"
                 = Ok (drop 1 (LoadBalancerSourceRanges s)
                       ++ take 1 (LoadBalancerSourceRanges s))).
    { simpl. rewrite (reconcile_remove_first_match _ [] r Hdec).
      destruct (LoadBalancerSourceRanges s) as [|x l]; simpl; [done|].
      by rewrite drop_0, take_0. }
    assert (Hback : retract r (drop 1 (LoadBalancerSourceRanges s)
                               ++ take 1 (LoadBalancerSourceRanges s))
                      (granted r t0 m s) = back).
    { unfold retract, removeServiceAnnotation, applySourceRangesToSpec,
        set_annotations, set_ranges, granted, back. simpl.
      by rewrite delete_insert_eq. }
    assert (Hloop : ∃ w2',
      iterate_loop (sweep_now w2)
        (range_keys (granted r t0 m s) (timeNow (env w2)).2).1
        (granted r t0 m s) (sweep_start (granted r t0 m s) w2)
      = (Ret (back, None), w2') ∧
      updates w2' = updates (sweep_start (granted r t0 m s) w2)
                    ++ [(Namespace s, back)]).
    { rewrite <- Hback.
      change (Namespace s) with (Namespace (granted r t0 m s)).
      apply (iterate_loop_one_expired (sweep_now w2) r
               (Format (AddDate t0 0 0 2))); try done.
      - unfold sweep_now. fold t1. by apply Hlife.
      - simpl. by rewrite Hback.
      - by eapply range_keys_complete. }
    destruct Hloop as (w2' & -> & Hu).
    eexists. split; [reflexivity|]. done.
Qed.

End More.

(** * Further properties of the sweep *)

Section MoreSweep.
Context {E : Type} `{Cluster E}.

(** X17. A sweep of a resource without expired access-rule annotation
    returns no error, leaves the resource as it is, sends nothing, and its
    last line of output is the "Finished checking" line. *)
Theorem sweep_without_expired_rule (s : Service) (w : World E) :
  (∀ k v, annotation s k = Some v → HasPrefix k annotationKeyPrefix = true →
          String.ltb v (sweep_now w) = false) →
  ∃ out,
    IterateAnnotations s w
    = (Ret (s, None),
       mkWorld (env (sweep_start s w))
         (stdout w ++ out ++
          ["Finished checking rules for service " +:+ Name s +:+ newline])
         (updates w)).
Proof.
  intros Hlive. rewrite IterateAnnotations_run.
  destruct (iterate_loop_all_live (sweep_now w)
              (range_keys s (timeNow (env w)).2).1 s (sweep_start s w) Hlive)
    as (w' & Hrun & Hu & He).
  destruct (iterate_loop_inv (λ _, True) (sweep_now w) (λ _ _ _ _ _, I)
              (range_keys s (timeNow (env w)).2).1 s (sweep_start s w) I)
    as (s2 & err & w2 & sent & out & Hrun2 & _ & _ & _ & Ho).
  rewrite Hrun in Hrun2. injection Hrun2 as <- <- <-.
  rewrite Hrun. exists out. f_equal. destruct w' as [e' o' u'].
  simpl in *. subst. by rewrite app_assoc.
Qed.

(** X18. Resources without the management marker are skipped by the loop
    over the resources: the clock is not read, nothing is printed and
    nothing is sent. *)
Theorem tick_skips_unmanaged (items : list Service) (w : World E) :
  Forall (λ s, IsAutoManaged s = false) items →
  worker_items items w = (Ret tt, w).
Proof.
  induction 1 as [|s items Hs _ IH]; [done|].
  by rewrite worker_items_cons, Hs.
Qed.

(** X19. A sweep only takes away: the resource it leaves and every object
    it sends keep the name and the namespace, have an allow-list included
    in the original one and no annotation that was not there with the same
    value; every update goes to the namespace of the resource. *)
Theorem sweep_only_takes_away (s : Service) (w : World E) :
  ∃ s' err w' sent,
    IterateAnnotations s w = (Ret (s', err), w') ∧
    updates w' = updates w ++ sent ∧
    Forall (λ o,
      Name o = Name s ∧ Namespace o = Namespace s ∧
      LoadBalancerSourceRanges o ⊆ LoadBalancerSourceRanges s ∧
      ∀ k v, annotation o k = Some v → annotation s k = Some v)
      (s' :: sent.*2) ∧
    Forall (λ u, u.1 = Namespace s) sent.
Proof.
  destruct (IterateAnnotations_inv (shrinks s)
              (λ s1 ip r Hs1 Hr, shrinks_trans _ _ _ Hs1 (retract_shrinks ip r s1 Hr))
              s w (shrinks_refl s))
    as (s' & err & w' & sent & out & Hrun & Hs' & Hu & Hf & _).
  exists s', err, w', sent. split; [done|]. split; [done|].
  assert (Hsh : ∀ o, shrinks s o →
            Name o = Name s ∧ Namespace o = Namespace s ∧
            LoadBalancerSourceRanges o ⊆ LoadBalancerSourceRanges s ∧
            ∀ k v, annotation o k = Some v → annotation s k = Some v).
  { intros o (Hn & Hns & Ha & Hr). repeat split; try done.
    intros k v Hk. destruct (Ha k) as [Heq|[Hnone _]]; congruence. }
  split.
  - constructor; [by apply Hsh|]. apply Forall_fmap.
    eapply Forall_impl; [exact Hf|]. intros u [Hu1 _]. by apply Hsh.
  - eapply Forall_impl; [exact Hf|]. intros u [Hu1 ->].
    by destruct Hu1 as (_ & ? & _).
Qed.


Lemma iterate_loop_orphan (now y v : string) (keys : list string)
    (s : Service) (w : World E) :
  annotation s (annotationKey y) = Some v → String.ltb v now = true →
  y ∉ LoadBalancerSourceRanges s → annotationKey y ∈ keys →
  ∃ s' e w', iterate_loop now keys s w = (Ret (s', Some e), w').
Proof.
  intros Hy Hexp. revert s w Hy.
  induction keys as [|a keys IH]; intros s w Hy Hout Hin;
    [by apply elem_of_nil in Hin|].
  destruct (decide (a = annotationKey y)) as [->|Hne].
  { rewrite (iterate_loop_expired now _ v keys s w Hy
               (annotationKey_HasPrefix y) Hexp).
    rewrite TrimPrefix_annotationKey. unfold bind at 1. unfold Printf at 1.
    unfold bind at 1.
    rewrite (RemoveIpFromService_absent y s _ ErrNotFound)
      by (by apply reconcile_remove_absent).
    by eexists _, _, _. }
  apply elem_of_cons in Hin as [Hin|Hin]; [done|].
  destruct (annotation s a) as [va|] eqn:Ha;
    [|rewrite iterate_loop_skip by (by left); by apply IH].
  destruct (HasPrefix a annotationKeyPrefix) eqn:Hp;
    [|rewrite iterate_loop_skip by (by right); by apply IH].
  destruct (String.ltb va now) eqn:Hva;
    [|rewrite (iterate_loop_live now a va keys s w Ha Hp Hva); by apply IH].
  rewrite (iterate_loop_expired now a va keys s w Ha Hp Hva).
  unfold bind at 1. unfold Printf at 1. unfold bind at 1.
  set (ip := TrimPrefix a (annotationKeyPrefix +:+ ".")).
  destruct (reconcileSourceRanges (LoadBalancerSourceRanges s) ip "remove")
    as [l|e] eqn:Hr.
  - rewrite (RemoveIpFromService_present ip s _ l Hr).
    destruct (servicesUpdate (Namespace s) (retract ip l s) _) as [[e|] e1]; simpl.
    + by eexists _, _, _.
    + pose proof (reconcile_remove_Ok _ _ _ Hr) as (Hp' & Hsub & _).
      assert (Hip : ip ≠ y).
      { intros ->. apply Hout. rewrite <- Hp'. left. }
      apply IH; [|by intros ?%Hsub|done].
      rewrite annotation_retract, decide_False; [done|].
      intros Hk. by apply annotationKey_inj in Hk.
  - rewrite (RemoveIpFromService_absent ip s _ e Hr). by eexists _, _, _.
Qed.

(** X20. An access-rule annotation whose range is not in the allow-list is
    never erased by a sweep: it is in the resource the sweep leaves and in
    every object sent; when it is expired the sweep of the resource ends
    with an error. *)
Theorem orphan_rule_is_never_erased (y v : string) (s : Service) (w : World E) :
  annotation s (annotationKey y) = Some v → y ∉ LoadBalancerSourceRanges s →
  ∃ s' err w' sent,
    IterateAnnotations s w = (Ret (s', err), w') ∧
    updates w' = updates w ++ sent ∧
    Forall (λ o, annotation o (annotationKey y) = Some v) (s' :: sent.*2) ∧
    (String.ltb v (sweep_now w) = true → err ≠ None).
Proof.
  intros Hy Hout.
  set (P := λ o : Service, annotation o (annotationKey y) = Some v ∧
                           y ∉ LoadBalancerSourceRanges o).
  assert (HP : ∀ s1 ip r, P s1 →
     reconcileSourceRanges (LoadBalancerSourceRanges s1) ip "remove" = Ok r →
     P (retract ip r s1)).
  { intros s1 ip r [Hy1 Hout1] Hr.
    pose proof (reconcile_remove_Ok _ _ _ Hr) as (Hp' & Hsub & _).
    assert (Hip : ip ≠ y).
    { intros ->. apply Hout1. rewrite <- Hp'. left. }
    split; [|by intros ?%Hsub].
    rewrite annotation_retract, decide_False; [done|].
    intros Hk. by apply annotationKey_inj in Hk. }
  destruct (IterateAnnotations_inv P HP s w (conj Hy Hout))
    as (s' & err & w' & sent & out & Hrun & [Hs' _] & Hu & Hf & _).
  exists s', err, w', sent. split; [done|]. split; [done|]. split.
  - constructor; [done|]. apply Forall_fmap.
    eapply Forall_impl; [exact Hf|]. by intros u [[? _] _].
  - intros Hexp. rewrite IterateAnnotations_run in Hrun.
    destruct (iterate_loop_orphan (sweep_now w) y v
                (range_keys s (timeNow (env w)).2).1 s (sweep_start s w)
                Hy Hexp Hout) as (s2 & e & w2 & Hloop).
    { by eapply range_keys_complete. }
    rewrite Hloop in Hrun. by injection Hrun as <- <- <-.
Qed.


Lemma annotationKey_longer (a : string) : annotationKey a ≠ a.
Proof.
  intros Heq. apply (f_equal String.length) in Heq.
  cbv [annotationKey annotationKeyPrefix String.append] in Heq.
  simpl in Heq. lia.
Qed.

(** X21. An expired entry whose key has the prefix but not the dot after it
    is handed to [RemoveIpFromService] with the whole key as the range:
    the scan fails with not found when the key is not in the allow-list,
    and in no case is the entry itself erased. *)
Theorem dotless_key_is_taken_whole (now a v : string) (keys : list string)
    (s : Service) (w : World E) :
  annotation s a = Some v → HasPrefix a annotationKeyPrefix = true →
  HasPrefix a (annotationKeyPrefix +:+ ".") = false →
  String.ltb v now = true →
  let w1 := mkWorld (env w)
              (stdout w ++ ["Time to remove this rule: " +:+ a +:+ newline])
              (updates w) in
  (a ∉ LoadBalancerSourceRanges s →
   iterate_loop now (a :: keys) s w = (Ret (s, Some ErrNotFound), w1)) ∧
  (∀ s' err w', RemoveIpFromService a s w1 = (Ret (s', err), w') →
     annotation s' a = Some v ∧
     match err with
     | Some e => iterate_loop now (a :: keys) s w = (Ret (s', Some e), w')
     | None => iterate_loop now (a :: keys) s w = iterate_loop now keys s' w'
     end).
Proof.
  intros Ha Hp Hdot Hv w1.
  assert (Htrim : TrimPrefix a (annotationKeyPrefix +:+ ".") = a).
  { unfold TrimPrefix. by rewrite Hdot. }
  assert (Hstep : iterate_loop now (a :: keys) s w
    = match RemoveIpFromService a s w1 with
      | (Ret (s', Some e), w') => (Ret (s', Some e), w')
      | (Ret (s', None), w') => iterate_loop now keys s' w'
      | (Panic, w') => (Panic, w')
      end).
  { rewrite (iterate_loop_expired now a v keys s w Ha Hp Hv), Htrim.
    unfold bind at 1. unfold Printf at 1. unfold bind at 1. fold w1.
    by destruct (RemoveIpFromService a s w1) as [[[s' [e|]]|] w']. }
  split.
  - intros Hout. rewrite Hstep.
    by rewrite (RemoveIpFromService_absent a s w1 ErrNotFound)
      by (by apply reconcile_remove_absent).
  - intros s' err w' Hrun. rewrite Hstep, Hrun. split; [|by destruct err].
    destruct (reconcileSourceRanges (LoadBalancerSourceRanges s) a "remove")
      as [l|e] eqn:Hr.
    + rewrite (RemoveIpFromService_present a s w1 l Hr) in Hrun.
      injection Hrun as <- _ _. rewrite annotation_retract.
      rewrite decide_False; [done|]. intros Heq. by apply (annotationKey_longer a).
    + rewrite (RemoveIpFromService_absent a s w1 e Hr) in Hrun.
      by injection Hrun as <- _ _.
Qed.

Section Steady.
(** A property of the environment under which the cluster accepts every
    update and which updates keep. *)
Variable steady : E → Prop.
Hypothesis steady_update : ∀ ns o e,
  steady e → (servicesUpdate ns o e).1 = None ∧ steady (servicesUpdate ns o e).2.

Lemma iterate_loop_all_retracted (now : string) (keys : list string) :
  ∀ (s : Service) (w : World E),
  expired_backed now s → steady (env w) →
  ∃ s' w',
    iterate_loop now keys s w = (Ret (s', None), w') ∧
    steady (env w') ∧ expired_backed now s' ∧ shrinks s s' ∧
    (∀ k v, k ∈ keys → annotation s' k = Some v →
            HasPrefix k annotationKeyPrefix = true → String.ltb v now = false) ∧
    (∀ k v, annotation s k = Some v →
            HasPrefix k annotationKeyPrefix = false ∨ String.ltb v now = false →
            annotation s' k = Some v) ∧
    (∀ r, r ∈ LoadBalancerSourceRanges s →
          (∀ v, annotation s (annotationKey r) = Some v → String.ltb v now = false) →
          r ∈ LoadBalancerSourceRanges s') ∧
    (NoDup (LoadBalancerSourceRanges s) →
     NoDup (LoadBalancerSourceRanges s') ∧
     ∀ r v, annotation s (annotationKey r) = Some v → String.ltb v now = true →
            annotationKey r ∈ keys → r ∉ LoadBalancerSourceRanges s').
Proof.
  induction keys as [|a keys IH]; intros s w Hb Hst.
  { exists s, w. split; [done|]. split; [done|]. split; [done|].
    split; [apply shrinks_refl|]. split; [by intros k v ?%elem_of_nil|].
    split; [done|]. split; [done|]. intros Hnd. split; [done|].
    by intros r v _ _ ?%elem_of_nil. }
  (* the head leaves the resource as it is *)
  assert (Hsame : ∀ w1 : World E, env w1 = env w →
    (∀ v, annotation s a = Some v → HasPrefix a annotationKeyPrefix = true →
          String.ltb v now = false) →
    ∃ s' w',
      iterate_loop now keys s w1 = (Ret (s', None), w') ∧
      steady (env w') ∧ expired_backed now s' ∧ shrinks s s' ∧
      (∀ k v, k ∈ a :: keys → annotation s' k = Some v →
              HasPrefix k annotationKeyPrefix = true → String.ltb v now = false) ∧
      (∀ k v, annotation s k = Some v →
              HasPrefix k annotationKeyPrefix = false ∨ String.ltb v now = false →
              annotation s' k = Some v) ∧
      (∀ r, r ∈ LoadBalancerSourceRanges s →
            (∀ v, annotation s (annotationKey r) = Some v → String.ltb v now = false) →
            r ∈ LoadBalancerSourceRanges s') ∧
      (NoDup (LoadBalancerSourceRanges s) →
       NoDup (LoadBalancerSourceRanges s') ∧
       ∀ r v, annotation s (annotationKey r) = Some v → String.ltb v now = true →
              annotationKey r ∈ a :: keys → r ∉ LoadBalancerSourceRanges s')).
  { intros w1 He Hhead.
    destruct (IH s w1 Hb) as (s' & w' & Hrun & Hst' & Hb' & Hsh & Hgone & Hkept & Hrk & Hnd);
      [by rewrite He|].
    exists s', w'. split; [done|]. split; [done|]. split; [done|].
    split; [done|]. split.
    { intros k v [->|Hk]%elem_of_cons Hk' Hp; [|by eapply Hgone].
      destruct Hsh as (_ & _ & Ha & _).
      destruct (Ha a) as [Heq|[Hnone _]]; [|congruence].
      apply Hhead; [congruence | done]. }
    split; [done|]. split; [done|]. intros Hn. destruct (Hnd Hn) as [Hn' Hrem].
    split; [done|]. intros r v Hr Hexp [Heq|Hk]%elem_of_cons; [|by eapply Hrem].
    rewrite <- Heq in Hhead.
    rewrite (Hhead v Hr (annotationKey_HasPrefix r)) in Hexp. done. }
  destruct (annotation s a) as [va|] eqn:Ha;
    [|rewrite iterate_loop_skip by (by left); by apply Hsame].
  destruct (HasPrefix a annotationKeyPrefix) eqn:Hp;
    [|rewrite iterate_loop_skip by (by right); by apply Hsame].
  destruct (String.ltb va now) eqn:Hva.
  2:{ rewrite (iterate_loop_live now a va keys s w Ha Hp Hva).
      apply Hsame; [done|]. by intros v [= <-]. }
  destruct (Hb a va Ha Hp Hva) as (r0 & -> & Hr0).
  rewrite (iterate_loop_expired now _ va keys s w Ha Hp Hva).
  rewrite TrimPrefix_annotationKey.
  unfold bind at 1. unfold Printf at 1. unfold bind at 1.
  destruct (reconcile_remove_cases (LoadBalancerSourceRanges s) r0)
    as [[Hout _]|(pre & post & Hs & Hpre & Hr)]; [done|].
  rewrite (RemoveIpFromService_present r0 s _ _ Hr).
  pose proof (reconcile_remove_Ok _ _ _ Hr) as (Hperm & Hsub & Hkeep).
  set (s2 := retract r0 (swap_out pre post) s).
  cbn [env].
  destruct (steady_update (Namespace s) s2 (env w) Hst) as [Hnone Hst2].
  destruct (servicesUpdate (Namespace s) s2 (env w)) as [err e2].
  simpl in Hnone, Hst2. subst err. cbn [fst snd].
  assert (Hb2 : expired_backed now s2).
  { intros k v. unfold s2. rewrite annotation_retract.
    destruct (decide _) as [|Hk]; [done|]. intros Hk1 Hk2 Hk3.
    destruct (Hb k v Hk1 Hk2 Hk3) as (r & -> & Hr1). exists r. split; [done|].
    apply Hkeep; [done|]. by intros ->. }
  match goal with |- context [iterate_loop now keys s2 ?w2] =>
    destruct (IH s2 w2 Hb2 Hst2)
      as (s' & w' & Hrun & Hst' & Hb' & Hsh & Hgone & Hkept & Hrk & Hnd)
  end.
  rewrite Hrun. exists s', w'. split; [done|]. split; [done|].
  split; [done|].
  assert (Hsh2 : shrinks s s2) by by apply retract_shrinks.
  split; [by eapply shrinks_trans|]. split.
  { intros k v [->|Hk]%elem_of_cons Hk' Hp'; [|by eapply Hgone].
    destruct Hsh as (_ & _ & Ha' & _).
    destruct (Ha' (annotationKey r0)) as [Heq|[Hnone _]]; [|congruence].
    unfold s2 in Heq. rewrite annotation_retract, decide_True in Heq by done.
    congruence. }
  split.
  { intros k v Hk Hor. apply Hkept; [|done]. unfold s2.
    rewrite annotation_retract, decide_False; [done|].
    intros ->. rewrite Ha in Hk. injection Hk as <-.
    destruct Hor as [Hor|Hor]; congruence. }
  split.
  { intros r Hr1 Hlive. apply Hrk.
    - apply Hkeep; [done|]. intros ->. by rewrite (Hlive va Ha) in Hva.
    - intros v. unfold s2. rewrite annotation_retract.
      destruct (decide _); [done | apply Hlive]. }
  intros Hn. rewrite <- Hperm in Hn. apply NoDup_cons in Hn as [Hr0' Hn2].
  destruct (Hnd Hn2) as [Hn' Hrem]. split; [done|].
  intros r v Hr1 Hexp Hin.
  destruct (decide (r = r0)) as [->|Hne].
  - destruct Hsh as (_ & _ & _ & Hsub'). by intros ?%Hsub'.
  - apply elem_of_cons in Hin as [Heq|Hin]; [by apply annotationKey_inj in Heq|].
    apply (Hrem r v); [|done|done]. unfold s2.
    rewrite annotation_retract, decide_False; [done|].
    intros Hk. by apply annotationKey_inj in Hk.
Qed.

End Steady.

(** X22. When the cluster accepts every update and each expired
    access-rule annotation has the form prefix.range with its range in the
    allow-list, a sweep returns no error and leaves no expired annotation;
    live and foreign annotations stay, ranges without an expired annotation
    stay, and from a duplicate-free allow-list the range of every expired
    rule is gone. *)
Theorem sweep_retracts_every_expired_rule (steady : E → Prop) (s : Service)
    (w : World E) :
  (∀ ns o e, steady e →
     (servicesUpdate ns o e).1 = None ∧ steady (servicesUpdate ns o e).2) →
  steady (env (sweep_start s w)) →
  expired_backed (sweep_now w) s →
  ∃ s' w',
    IterateAnnotations s w = (Ret (s', None), w') ∧
    (∀ k v, annotation s' k = Some v → HasPrefix k annotationKeyPrefix = true →
            String.ltb v (sweep_now w) = false) ∧
    (∀ k v, annotation s k = Some v →
            HasPrefix k annotationKeyPrefix = false ∨
            String.ltb v (sweep_now w) = false →
            annotation s' k = Some v) ∧
    (∀ r, r ∈ LoadBalancerSourceRanges s →
          (∀ v, annotation s (annotationKey r) = Some v →
                String.ltb v (sweep_now w) = false) →
          r ∈ LoadBalancerSourceRanges s') ∧
    (NoDup (LoadBalancerSourceRanges s) →
     ∀ r v, annotation s (annotationKey r) = Some v →
            String.ltb v (sweep_now w) = true →
            r ∉ LoadBalancerSourceRanges s').
Proof.
  intros Hsteady Hst Hb. rewrite IterateAnnotations_run.
  destruct (iterate_loop_all_retracted steady Hsteady (sweep_now w)
              (range_keys s (timeNow (env w)).2).1 s (sweep_start s w) Hb Hst)
    as (s' & w' & -> & _ & _ & Hsh & Hgone & Hkept & Hrk & Hnd).
  eexists s', _. split; [reflexivity|]. split.
  { intros k v Hk Hp. apply (Hgone k v); [|done|done].
    apply (range_keys_complete s _ k v).
    destruct Hsh as (_ & _ & Ha & _).
    destruct (Ha k) as [Heq|[Hnone _]]; congruence. }
  split; [done|]. split; [done|]. intros Hn r v Hr Hexp.
  destruct (Hnd Hn) as [_ Hrem]. apply (Hrem r v Hr Hexp).
  by eapply range_keys_complete.
Qed.

End MoreSweep.

(** * Properties of the request path *)

Lemma has_host_serves (f : string) (i : Ingress) :
  has_host f (Rules i) = true ↔ serves f i.
Proof.
  unfold serves. induction (Rules i) as [|r rules IH]; simpl.
  - split; [done|]. by intros (r & ?%elem_of_nil & _).
  - destruct (String.eqb_spec (Host r) f) as [Heq|Hne].
    + split; [|done]. intros _. exists r. split; [left | done].
    + rewrite IH. split.
      * intros (r' & Hin & Hr'). exists r'. split; [by right | done].
      * intros (r' & [->|Hin]%elem_of_cons & Hr'); [done|]. by exists r'.
Qed.

Lemma find_ingress_Some (f : string) (items : list Ingress) (i : Ingress) :
  find_ingress f items = Some i
  ↔ ∃ l1 l2, items = l1 ++ i :: l2 ∧ serves f i ∧ Forall (λ j, ¬ serves f j) l1.
Proof.
  revert i. induction items as [|j items IH]; intros i; simpl.
  - split; [done|]. intros (l1 & l2 & Heq & _). by destruct l1.
  - destruct (has_host f (Rules j)) eqn:Hj.
    + apply has_host_serves in Hj. split.
      * intros [= <-]. by exists [], items.
      * intros (l1 & l2 & Heq & Hi & Hl1). destruct l1 as [|j' l1].
        -- by injection Heq as <- _.
        -- injection Heq as <- _. apply Forall_cons in Hl1 as [Hn _]. done.
    + assert (Hnj : ¬ serves f j).
      { rewrite <- has_host_serves. by rewrite Hj. }
      rewrite IH. split.
      * intros (l1 & l2 & -> & Hi & Hl1). exists (j :: l1), l2.
        split; [done|]. split; [done|]. by constructor.
      * intros (l1 & l2 & Heq & Hi & Hl1). destruct l1 as [|j' l1].
        -- injection Heq as <- _. done.
        -- injection Heq as <- ->. apply Forall_cons in Hl1 as [_ Hl1].
           by exists l1, l2.
Qed.

Lemma find_ingress_None (f : string) (items : list Ingress) :
  find_ingress f items = None ↔ Forall (λ j, ¬ serves f j) items.
Proof.
  induction items as [|j items IH]; simpl; [by split|].
  destruct (has_host f (Rules j)) eqn:Hj.
  - apply has_host_serves in Hj. split; [done|].
    by intros [Hn _]%Forall_cons.
  - assert (Hnj : ¬ serves f j).
    { rewrite <- has_host_serves. by rewrite Hj. }
    rewrite IH. split; [by constructor | by intros [_ ?]%Forall_cons].
Qed.

Section ApplierFacts.
Context {E Config : Type} `{Cluster E} `{Frontend E Config}.

Lemma FindIngForFqdn_run (f : string) (w : World E) :
  FindIngForFqdn f w
  = (Ret match (ingressesList (env w)).1.2 with
         | Some e => Failed (ErrCluster e)
         | None =>
             match find_ingress f (ingressesList (env w)).1.1 with
             | Some i => Done i
             | None => Failed (ErrNoIngress f)
             end
         end,
     mkWorld (ingressesList (env w)).2 (stdout w) (updates w)).
Proof.
  unfold FindIngForFqdn, bind, lift_env.
  destruct (ingressesList (env w)) as [[items [e|]] e1]; simpl; [done|].
  by destruct (find_ingress f items).
Qed.

(** X23. [FindIngForFqdn] passes a listing error on; otherwise it returns
    the first routing rule object of the listing with a rule for the host,
    and "No ingress found" exactly when none has one. *)
Theorem find_ingress_takes_first_match (f : string) (w : World E) :
  let items := (ingressesList (env w)).1.1 in
  let w' := mkWorld (ingressesList (env w)).2 (stdout w) (updates w) in
  (∀ e, (ingressesList (env w)).1.2 = Some e →
        FindIngForFqdn f w = (Ret (Failed (ErrCluster e)), w')) ∧
  ((ingressesList (env w)).1.2 = None →
   (∀ i, FindIngForFqdn f w = (Ret (Done i), w')
         ↔ ∃ l1 l2, items = l1 ++ i :: l2 ∧ serves f i ∧
                    Forall (λ j, ¬ serves f j) l1) ∧
   (FindIngForFqdn f w = (Ret (Failed (ErrNoIngress f)), w')
    ↔ Forall (λ j, ¬ serves f j) items)).
Proof.
  intros items w'. rewrite FindIngForFqdn_run. fold items w'. split.
  - by intros e ->.
  - intros ->. split.
    + intros i. rewrite <- find_ingress_Some.
      destruct (find_ingress f items) as [j|]; split; try done.
      * by intros [= ->].
      * by intros [= ->].
    + rewrite <- find_ingress_None.
      destruct (find_ingress f items) as [j|]; split; done.
Qed.


Lemma getClientsetInternal_run (w : World E) :
  ∃ r e1, getClientsetInternal w = (Ret r, mkWorld e1 (stdout w) (updates w)).
Proof.
  unfold getClientsetInternal, bind, lift_env.
  destruct (restInClusterConfig (env w)) as [[c|e] e1]; simpl.
  - destruct (kubernetesNewForConfig c e1) as [r e2]. by eexists _, _.
  - by eexists _, _.
Qed.

Lemma getClientsetExternal_run (w : World E) :
  ∃ r e1, getClientsetExternal w = (Ret r, mkWorld e1 (stdout w) (updates w)).
Proof.
  unfold getClientsetExternal, bind, lift_env.
  destruct (clientcmdBuildConfigFromFlags _ _ (env w)) as [[c|e] e1]; simpl.
  - destruct (kubernetesNewForConfig c e1) as [r e2]. by eexists _, _.
  - destruct w. by eexists _, _.
Qed.

(** X24. [GetClientset] returns without printing or sending; its only
    error is "No credentials available" (the errors underneath are
    dropped); when the in-cluster way works the kubeconfig file is not
    consulted; it succeeds exactly when one of the two ways does. *)
Theorem credentials_prefer_in_cluster (w : World E) :
  ∃ r w',
    GetClientset w = (Ret r, w') ∧
    stdout w' = stdout w ∧ updates w' = updates w ∧
    (r = None ∨ r = Some ErrNoCredentials) ∧
    ((getClientsetInternal w).1 = Ret None →
     r = None ∧ w' = (getClientsetInternal w).2) ∧
    (r = None ↔
     (getClientsetInternal w).1 = Ret None ∨
     (getClientsetExternal (getClientsetInternal w).2).1 = Ret None).
Proof.
  unfold GetClientset, bind.
  destruct (getClientsetInternal_run w) as (r1 & e1 & ->). simpl.
  destruct r1 as [err1|].
  - destruct (getClientsetExternal_run (mkWorld e1 (stdout w) (updates w)))
      as (r2 & e2 & ->). simpl.
    destruct r2 as [err2|]; eexists _, _; (split; [reflexivity|]); simpl;
      (split; [done|]); (split; [done|]).
    + split; [by right|]. split; [done|]. split; [done | by intros [|]].
    + split; [by left|]. split; [done|]. split; [by right | done].
  - eexists _, _. split; [reflexivity|]. simpl.
    split; [done|]. split; [done|]. split; [by left|].
    split; [done|]. split; [by left | done].
Qed.


Lemma GetClientset_run (w : World E) :
  ∃ r e1, GetClientset w = (Ret r, mkWorld e1 (stdout w) (updates w)) ∧
          (r = None ∨ r = Some ErrNoCredentials).
Proof.
  unfold GetClientset, bind.
  destruct (getClientsetInternal_run w) as (r1 & e1 & ->). simpl.
  destruct r1 as [err1|]; [|eexists _, _; split; [reflexivity | by left]].
  destruct (getClientsetExternal_run (mkWorld e1 (stdout w) (updates w)))
    as (r2 & e2 & ->). simpl.
  destruct r2 as [err2|]; eexists _, _; (split; [reflexivity|]);
    [by right | by left].
Qed.

Lemma ApplyRequestToCluster_cases (ctx : string) (data : WhitelistRequest)
    (w : World E) :
  ∃ o w' sent,
    ApplyRequestToCluster ctx data w = (o, w') ∧
    updates w' = updates w ++ sent ∧ apply_facts data o sent.
Proof.
  unfold ApplyRequestToCluster.
  unfold bind at 1. unfold Printf at 1. unfold bind at 1.
  match goal with |- context [GetClientset ?w1] =>
    destruct (GetClientset_run w1) as (r & e1 & -> & Hr) end.
  cbn [stdout updates].
  destruct Hr as [-> | ->].
  2:{ eexists _, _, []. split; [reflexivity|]. simpl. by rewrite app_nil_r. }
  unfold bind at 1. unfold Printf at 1. unfold bind at 1.
  rewrite FindIngForFqdn_run. cbn [env stdout updates].
  destruct (ingressesList e1) as [[items [e|]] e2]; cbn [fst snd].
  { eexists _, _, []. split; [reflexivity|]. simpl.
    split; [by rewrite app_nil_r | by left]. }
  destruct (find_ingress (Domain data) items) as [ing|] eqn:Hfind.
  2:{ eexists _, _, []. split; [reflexivity|]. simpl. by rewrite app_nil_r. }
  assert (Hserves : serves (Domain data) ing).
  { apply find_ingress_Some in Hfind as (_ & _ & _ & ? & _). done. }
  unfold bind at 1. unfold Printf at 1.
  destruct (first_backend ing) as [name|] eqn:Hfirst.
  2:{ eexists _, _, []. split; [reflexivity|]. simpl.
      split; [by rewrite app_nil_r|]. split; [done|]. by exists ing. }
  unfold bind at 1. unfold Printf at 1.
  destruct (String.eqb_spec (ingress_class ing) "nginx") as [Hclass|Hclass].
  2:{ eexists _, _, []. split; [reflexivity|]. simpl.
      split; [by rewrite app_nil_r|]. split; [done|]. by exists ing. }
  unfold bind at 1. unfold lift_env at 1. cbn [env stdout updates].
  destruct (servicesGet "default" "ingress-nginx" e2) as [[svc err] e3] eqn:Hget.
  destruct err as [e|].
  { eexists _, _, []. split; [reflexivity|]. simpl.
    split; [by rewrite app_nil_r | by left]. }
  unfold bind at 1. unfold Printf at 1.
  destruct (IsAutoManaged svc) eqn:Hauto; cbn [negb].
  2:{ eexists _, _, []. split; [reflexivity|]. simpl.
      split; [by rewrite app_nil_r|]. split; [done|].
      exists svc, e2. by rewrite Hget. }
  unfold bind at 1. rewrite UpdateServiceSpec_run.
  destruct (decide (IpAddress data ∈ LoadBalancerSourceRanges svc)) as [Hin|Hout].
  { rewrite bool_decide_eq_true_2 by done.
    eexists _, _, []. split; [reflexivity|]. simpl.
    split; [by rewrite app_nil_r | by left]. }
  rewrite bool_decide_eq_false_2 by done. cbv zeta.
  destruct (Annotations svc) as [m|] eqn:Hm.
  2:{ unfold IsAutoManaged, annotation in Hauto. by rewrite Hm in Hauto. }
  cbn [env stdout updates].
  destruct (servicesUpdate _ _ _) as [[e|] e4]; cbn [fst snd].
  - eexists _, _, [_]. split; [reflexivity|]. simpl. split; [done|]. right.
    exists svc, m, (timeNow e3).1, e2. by rewrite Hget.
  - unfold bind at 1. unfold Printf at 1.
    eexists _, _, [_]. split; [reflexivity|]. simpl. split; [done|].
    exists ing, svc, m, (timeNow e3).1, e2. by rewrite Hget.
Qed.

(** X25. A call of [ApplyRequestToCluster] sends at most one update:
    exactly one when it succeeds, none when it panics and none when it
    fails for another reason than an error of the reconciler or cluster. *)
Theorem apply_sends_at_most_one_update (ctx : string)
    (data : WhitelistRequest) (w : World E) :
  ∃ o w' sent,
    ApplyRequestToCluster ctx data w = (o, w') ∧
    updates w' = updates w ++ sent ∧ (List.length sent ≤ 1)%nat ∧
    (∀ d, o = Ret (Done d) → List.length sent = 1) ∧
    (∀ e, o = Ret (Failed e) → (∀ e', e ≠ ErrCluster e') → sent = []) ∧
    (o = Panic → sent = []).
Proof.
  destruct (ApplyRequestToCluster_cases ctx data w)
    as (o & w' & sent & Hrun & Hu & Hfacts).
  exists o, w', sent. split; [done|]. split; [done|].
  destruct o as [[d|e]|]; simpl in Hfacts.
  - destruct Hfacts as (ing & svc & m & t & e0 & _ & _ & _ & _ & _ & _ & _ & ->).
    split; [simpl; lia|]. split; [done|]. split; done.
  - assert (Hlen : (List.length sent ≤ 1)%nat).
    { destruct e as [| | | |e]; try (by rewrite ?(proj1 Hfacts), ?Hfacts; simpl; lia).
      destruct Hfacts as [->|(svc & m & t & e0 & _ & ->)]; simpl; lia. }
    split; [done|]. split; [done|]. split; [|done].
    intros e1 [= <-] Hne.
    destruct e as [| | | |e]; try (by destruct Hfacts); try done.
    by destruct (Hne e).
  - destruct Hfacts as [-> _]. split; [simpl; lia|]. split; [done|].
    split; done.
Qed.




End ApplierFacts.

(** * The further properties on concrete inputs *)

Lemma add_keeps_nodup_witness :
  List.length ["a"; "b"; "c"] = 3%nat ∧ (NoDup ["a"; "b"] → NoDup ["a"; "b"; "c"]).
Proof.
  destruct (add_keeps_nodup ["a"; "b"] ["a"; "b"; "c"] "c" eq_refl)
    as (Hl & _ & _ & Hn).
  split; [exact Hl | exact Hn].
Defined.

Lemma remove_takes_one_out_witness :
  List.length ["a"; "b"; "c"] = S (List.length ["b"; "a"]) ∧
  (NoDup ["a"; "b"; "c"] → NoDup ["b"; "a"] ∧ ("c" ∉ ["b"; "a"])).
Proof.
  destruct (remove_takes_one_out ["a"; "b"; "c"] ["b"; "a"] "c" eq_refl)
    as (_ & Hl & _ & Hn).
  split; [exact Hl | exact Hn].
Defined.

Lemma add_twice_is_refused_witness :
  reconcileSourceRanges ["a"; "b"] "b" "add" = Err (ErrAlreadyWhitelisted "b").
Proof. exact (proj1 (add_twice_is_refused ["a"] ["a"; "b"] "b" eq_refl)). Defined.

Lemma remove_then_again_witness :
  reconcileSourceRanges ["b"; "a"] "c" "remove" = Err ErrNotFound ∧
  reconcileSourceRanges ["b"; "a"] "c" "add" = Ok ["b"; "a"; "c"].
Proof.
  assert (Hn : NoDup ["a"; "b"; "c"]).
  { apply (bool_decide_unpack _). vm_compute. exact I. }
  destruct (remove_then_again ["a"; "b"; "c"] ["b"; "a"] "c" Hn eq_refl)
    as (H1 & H2 & _).
  split; [exact H1 | exact H2].
Defined.

Lemma stamp_then_erase_witness :
  removeServiceAnnotation "10.0.0.1/32"
    (mkService "ingress-nginx" "default"
       (Some (<[annotationKey "10.0.0.1/32" := "2018-01-01 23:59:58"]>
               (<[mgmtAnnotation := "true"]> ∅)))
       ["192.168.0.0/16"])
  = demo_service.
Proof.
  refine (proj2 (proj2 (proj2 (stamp_then_erase (E := Fake) "10.0.0.1/32"
            "2018-01-01 23:59:58" demo_service _ demo_world demo_world _))) _).
  - vm_compute. reflexivity.
  - vm_compute. reflexivity.
Defined.

Lemma grant_duplicate_has_no_effect_witness :
  UpdateServiceSpec "192.168.0.0/16" "default" demo_service demo_world
  = (Ret (demo_service, Err (ErrAlreadyWhitelisted "192.168.0.0/16")), demo_world).
Proof.
  apply (grant_duplicate_has_no_effect (E := Fake)). simpl. left.
Defined.

Lemma grant_of_new_range_witness :
  annotation
    (granted "10.0.0.1/32" demo_now (<[mgmtAnnotation := "true"]> ∅) demo_service)
    (annotationKey "10.0.0.1/32")
  = Some "2018-01-01 23:59:58".
Proof.
  refine (proj1 (proj2 (grant_of_new_range (E := Fake) "10.0.0.1/32" "default"
            demo_service (<[mgmtAnnotation := "true"]> ∅) demo_world _ eq_refl))).
  simpl. rewrite not_elem_of_cons. split; [discriminate | apply not_elem_of_nil].
Defined.

Lemma grant_again_is_refused_witness :
  UpdateServiceSpec "10.0.0.1/32" "default"
    (granted "10.0.0.1/32" demo_now (<[mgmtAnnotation := "true"]> ∅) demo_service)
    demo_world
  = (Ret (granted "10.0.0.1/32" demo_now (<[mgmtAnnotation := "true"]> ∅) demo_service,
          Err (ErrAlreadyWhitelisted "10.0.0.1/32")), demo_world).
Proof.
  refine (grant_again_is_refused (E := Fake) "10.0.0.1/32" "default"
            "2018-01-01 23:59:58" demo_service _ demo_world _ _ "default" demo_world).
  vm_compute. reflexivity.
Defined.


Lemma tick_skips_unmanaged_witness :
  worker_items [mkService "db" "default" None ["10.0.0.0/8"]] demo_world
  = (Ret tt, demo_world).
Proof.
  apply (tick_skips_unmanaged (E := Fake)). by repeat constructor.
Defined.

Lemma demo_service_no_rule (k v : string) :
  annotation demo_service k = Some v →
  HasPrefix k annotationKeyPrefix = true → False.
Proof.
  unfold annotation, demo_service. simpl.
  rewrite lookup_insert_Some, lookup_empty.
  intros [[<- _]|[_ [=]]]. by rewrite mgmtAnnotation_no_prefix.
Qed.

Lemma grant_then_retract_witness :
  ∃ s'' err w2',
    RemoveIpFromService "10.0.0.1/32"
      (granted "10.0.0.1/32" demo_now (<[mgmtAnnotation := "true"]> ∅) demo_service)
      demo_world
    = (Ret (s'', err), w2') ∧
    Annotations s'' = Annotations demo_service ∧
    LoadBalancerSourceRanges s'' = ["192.168.0.0/16"].
Proof.
  assert (Hgrant :
    UpdateServiceSpec "10.0.0.1/32" "default" demo_service demo_world
    = (Ret (granted "10.0.0.1/32" demo_now (<[mgmtAnnotation := "true"]> ∅)
              demo_service, Ok "2018-01-01 23:59:58"),
       (UpdateServiceSpec "10.0.0.1/32" "default" demo_service demo_world).2))
    by (vm_compute; reflexivity).
  destruct (grant_then_retract (E := Fake) "10.0.0.1/32" "default"
              "2018-01-01 23:59:58" demo_service
              (granted "10.0.0.1/32" demo_now (<[mgmtAnnotation := "true"]> ∅)
                 demo_service)
              demo_world
              (UpdateServiceSpec "10.0.0.1/32" "default" demo_service demo_world).2
              Hgrant demo_world)
    as (s'' & err & w2' & Hrun & _ & _ & Hl & _ & _ & Ha & _).
  exists s'', err, w2'. split; [exact Hrun|]. split; [|exact Hl].
  apply Ha. reflexivity.
Defined.

Lemma grant_then_sweep_witness :
  ∃ w2',
    IterateAnnotations
      (granted "10.0.0.1/32" demo_now (<[mgmtAnnotation := "true"]> ∅) demo_service)
      later_world
    = (Ret (demo_service, None), w2').
Proof.
  assert (Hgrant :
    UpdateServiceSpec "10.0.0.1/32" "default" demo_service demo_world
    = (Ret (granted "10.0.0.1/32" demo_now (<[mgmtAnnotation := "true"]> ∅)
              demo_service, Ok "2018-01-01 23:59:58"),
       (UpdateServiceSpec "10.0.0.1/32" "default" demo_service demo_world).2))
    by (vm_compute; reflexivity).
  destruct (grant_then_sweep (E := Fake) "10.0.0.1/32" "default"
              "2018-01-01 23:59:58" demo_service
              (granted "10.0.0.1/32" demo_now (<[mgmtAnnotation := "true"]> ∅)
                 demo_service)
              demo_world
              (UpdateServiceSpec "10.0.0.1/32" "default" demo_service demo_world).2
              later_world Hgrant) as [_ Hlate].
  - vm_compute; intuition discriminate.
  - vm_compute; intuition discriminate.
  - vm_compute; intuition discriminate.
  - vm_compute; intuition discriminate.
  - intros k v Hk Hp _. destruct (demo_service_no_rule k v Hk Hp).
  - destruct Hlate as (w2' & Hrun & _).
    + vm_compute. reflexivity.
    + reflexivity.
    + exists w2'. exact Hrun.
Defined.

Lemma sweep_without_expired_rule_witness :
  ∃ out,
    IterateAnnotations demo_service demo_world
    = (Ret (demo_service, None),
       mkWorld (env (sweep_start demo_service demo_world))
         (stdout demo_world ++ out ++
          ["Finished checking rules for service " +:+ Name demo_service +:+ newline])
         (updates demo_world)).
Proof.
  apply (sweep_without_expired_rule (E := Fake) demo_service demo_world).
  intros k v Hk Hp. destruct (demo_service_no_rule k v Hk Hp).
Defined.

Lemma orphan_rule_is_never_erased_witness :
  ∃ s' err w',
    IterateAnnotations two_expired two_expired_world = (Ret (s', err), w') ∧
    annotation s' (annotationKey "10.0.0.1/32") = Some past ∧ err ≠ None.
Proof.
  destruct (orphan_rule_is_never_erased (E := Fake) "10.0.0.1/32" past
              two_expired two_expired_world eq_refl)
    as (s' & err & w' & sent & Hrun & _ & Hall & Herr).
  - simpl. rewrite not_elem_of_cons. split; [discriminate | apply not_elem_of_nil].
  - exists s', err, w'. split; [exact Hrun|]. split.
    + by apply Forall_cons in Hall as [? _].
    + apply Herr. reflexivity.
Defined.

Lemma fake_steady_update (ns : string) (o : Service) (e : Fake) :
  fake_steady e →
  (servicesUpdate ns o e).1 = None ∧ fake_steady (servicesUpdate ns o e).2.
Proof.
  unfold fake_steady. simpl. unfold fake_update. intros ->. by split.
Qed.

Lemma all_expired_backed : expired_backed (Format demo_now) all_expired.
Proof.
  intros k v. unfold annotation, all_expired. simpl.
  rewrite !lookup_insert_Some, lookup_empty.
  intros [[<- _]|[_ [[<- _]|[_ [[<- _]|[_ [=]]]]]]] Hp _.
  - exists "10.0.0.1/32". split; [done|]. left.
  - exists "10.0.0.2/32". split; [done|]. right. left.
  - by rewrite mgmtAnnotation_no_prefix in Hp.
Qed.

Lemma sweep_retracts_every_expired_rule_witness :
  ∃ s' w',
    IterateAnnotations all_expired (mkWorld (mkFake demo_now [all_expired] None [] false) [] [])
    = (Ret (s', None), w') ∧
    ("10.0.0.1/32" ∉ LoadBalancerSourceRanges s') ∧
    ("10.0.0.2/32" ∉ LoadBalancerSourceRanges s').
Proof.
  destruct (sweep_retracts_every_expired_rule (E := Fake) fake_steady all_expired
              (mkWorld (mkFake demo_now [all_expired] None [] false) [] [])
              fake_steady_update eq_refl all_expired_backed)
    as (s' & w' & Hrun & _ & _ & _ & Hgone).
  assert (Hn : NoDup (LoadBalancerSourceRanges all_expired)).
  { apply (bool_decide_unpack _). vm_compute. exact I. }
  exists s', w'. split; [exact Hrun|]. split.
  - apply (Hgone Hn "10.0.0.1/32" past); reflexivity.
  - apply (Hgone Hn "10.0.0.2/32" past); reflexivity.
Defined.

Lemma dotless_key_is_taken_whole_witness :
  iterate_loop (Format demo_now) ["service.caretaker.ipaddress"] dotless demo_world
  = (Ret (dotless, Some ErrNotFound),
     mkWorld (env demo_world)
       (stdout demo_world ++
        ["Time to remove this rule: " +:+ "service.caretaker.ipaddress" +:+ newline])
       (updates demo_world)).
Proof.
  refine (proj1 (dotless_key_is_taken_whole (E := Fake) (Format demo_now)
            "service.caretaker.ipaddress" past [] dotless demo_world
            eq_refl eq_refl eq_refl eq_refl) _).
  simpl. rewrite not_elem_of_cons. split; [discriminate | apply not_elem_of_nil].
Defined.


